(** * Tensor: a two-dimensional container with manual buffer management

    Shallow embedding of [src/main.cc] (the member functions of the class
    template [Tensor<N>]) together with the properties stated about it.

    The C++ code manipulates raw storage: [new T[n]], [delete[]], indexing
    through pointers, and one array with automatic storage duration.  The
    embedding therefore works over an explicit store of blocks, in a small
    state-and-failure monad:

    - a pointer is the address of a block; a block has a size in bytes,
      fixed by the new-expression that made it ([n] elements of the
      element type written there), and the values written to it;
    - an access [p[i]] at an element type of [w] bytes touches the bytes
      [i * w .. (i + 1) * w - 1] of the block: outside the block, or on a
      slot that was never written, or through a pointer whose block is
      gone, it is undefined behaviour, outcome [Undefined];
    - a new-expression with a negative length throws
      [std::bad_array_new_length], outcome [Throws];
    - [int] values are modelled by [Z]; the only arithmetic in the source
      is the loop counter [++i] guarded by [i < x], which cannot wrap;
    - allocation never runs out of memory (the store is unbounded).

    Every block of the program is accessed at one element type only (the
    outer block at [N*], a row at [N], the array of [size] at [int]), so
    the values of a block are kept by element index. *)

From stdpp Require Import base numbers option list gmap sets.

Abbreviation addr := positive (only parsing).

(** The one exception the code can raise. *)
Inductive exn : Set := bad_array_new_length.

Section Tensor.

(** The template parameter, and the value the literal [0] converts to. *)
Context {N : Type}.
Variable zero : N.

(** The sizes in bytes of an [N], of a pointer and of an [int]. *)
Variables sizeof_N sizeof_ptr sizeof_int : positive.

(** ** Store *)

Inductive cell : Type :=
| Uninit                (* slot never written *)
| Elem (v : N)          (* a value of type N *)
| Ptr (p : addr)        (* a pointer to a block *)
| Int (z : Z).          (* an int *)

(** A block: its size in bytes and the values written to it, by element
    index. *)
Record block : Type := Block {
  capacity : Z;
  cells : list cell
}.

(** [mem]: the live blocks.  [released]: the operands of the
    delete-expressions evaluated so far, oldest first. *)
Record state : Type := State {
  mem : gmap addr block;
  released : list addr
}.

Inductive outcome (A : Type) : Type :=
| Ok (a : A) (s : state)
| Throws (e : exn)
| Undefined.
Global Arguments Ok {A} a s.
Global Arguments Throws {A} e.
Global Arguments Undefined {A}.

Definition M (A : Type) : Type := state → outcome A.

Global Instance M_ret : MRet M := λ A a s, Ok a s.
Global Instance M_bind : MBind M := λ A B k m s,
  match m s with
  | Ok a s' => k a s'
  | Throws e => Throws e
  | Undefined => Undefined
  end.

Definition undefined {A} : M A := λ _, Undefined.

(** [b[i]] for an [int] index. *)
Definition index {A} (b : list A) (i : Z) : option A :=
  if decide (0 ≤ i)%Z then b !! Z.to_nat i else None.

(** The size in bytes of [n] elements of [w] bytes each. *)
Definition bytes (w : positive) (n : Z) : Z := (n * Z.pos w)%Z.

(** Element [i] of width [w] lies inside block [b]. *)
Definition in_block (w : positive) (b : block) (i : Z) : Prop :=
  (0 ≤ i)%Z ∧ (bytes w (i + 1) ≤ capacity b)%Z.

(** The values of a block after a write to slot [i]; slots skipped over
    stay unwritten. *)
Definition write_cell (i : nat) (c : cell) (l : list cell) : list cell :=
  if decide (i < length l)%nat then <[i := c]> l
  else l ++ replicate (i - length l) Uninit ++ [c].

(** [new T[n]] for an element type [T] of [w] bytes: a fresh block of
    [n * w] bytes, nothing written. *)
Definition new_array (w : positive) (n : Z) : M addr := λ s,
  if decide (n < 0)%Z then Throws bad_array_new_length
  else
    let a := fresh (dom (mem s)) in
    Ok a (State (<[a := Block (bytes w n) []]> (mem s)) (released s)).

(** [delete[] p]. *)
Definition delete_array (p : addr) : M unit := λ s,
  match mem s !! p with
  | Some _ => Ok () (State (delete p (mem s)) (released s ++ [p]))
  | None => Undefined
  end.

(** A local array [T a[] = {...}] of elements of [w] bytes: a block that
    lives until the enclosing function returns. *)
Definition local_array (w : positive) (init : list cell) : M addr := λ s,
  let a := fresh (dom (mem s)) in
  Ok a (State (<[a := Block (bytes w (Z.of_nat (length init))) init]> (mem s))
              (released s)).

(** The end of the lifetime of a local array. *)
Definition end_of_scope (p : addr) : M unit := λ s,
  Ok () (State (delete p (mem s)) (released s)).

(** Reading [p[i]] at an element type of [w] bytes. *)
Definition load (w : positive) (p : addr) (i : Z) : M cell := λ s,
  match mem s !! p with
  | Some b =>
      if decide (in_block w b i)
      then match index (cells b) i with
           | Some Uninit | None => Undefined
           | Some c => Ok c s
           end
      else Undefined
  | None => Undefined
  end.

(** Writing [p[i] = c] at an element type of [w] bytes. *)
Definition store (w : positive) (p : addr) (i : Z) (c : cell) : M unit := λ s,
  match mem s !! p with
  | Some b =>
      if decide (in_block w b i)
      then Ok () (State (<[p := Block (capacity b) (write_cell (Z.to_nat i) c (cells b))]>
                           (mem s)) (released s))
      else Undefined
  | None => Undefined
  end.

Definition as_ptr (c : cell) : M addr :=
  match c with Ptr p => mret p | _ => undefined end.
Definition as_elem (c : cell) : M N :=
  match c with Elem v => mret v | _ => undefined end.
Definition as_int (c : cell) : M Z :=
  match c with Int z => mret z | _ => undefined end.

(** [p[i][j]] where [p] is an [N**]: [p[i]] is read as a pointer,
    [p[i][j]] as an [N]. *)
Definition index2 (p : addr) (i j : Z) : M N :=
  r ← load sizeof_ptr p i ≫= as_ptr;
  load sizeof_N r j ≫= as_elem.

(** [content[i][j]] on a [std::vector<std::vector<N>>]: [operator[]]
    does no bounds check. *)
Definition vector_index2 (content : list (list N)) (i j : Z) : M N := λ s,
  match index content i ≫= (λ row, index row j) with
  | Some v => Ok v s
  | None => Undefined
  end.

(** [for (int i = 0; i < x; ++i) body] *)
Fixpoint for_each (l : list Z) (body : Z → M unit) : M unit :=
  match l with
  | [] => mret ()
  | i :: l' => body i;; for_each l' body
  end.
Definition for_lt (x : Z) (body : Z → M unit) : M unit :=
  for_each (seqZ 0 x) body.

(** ** The class *)

(** Modelled from the spec: the class declaration ([Tensor.h]) is not among
    the sources.  Its data members are taken from the spec's data model and
    from their use in [main.cc]: [int rows], [int cols] and the storage
    [t], a pointer to [rows] row pointers, each row holding values of type
    [N] ([t[i][j]] is assigned an [N] and returned as an [N]). *)
Record Tensor : Type := { rows : Z; cols : Z; t : addr }.

(** [Tensor(int x, int y)].  Both new-expressions are [new N*[...]]:
    the outer array and every row are arrays of pointers. *)
Definition Tensor_default (x y : Z) : M Tensor :=
  let this_rows := x in
  let this_cols := y in
  this_t ← new_array sizeof_ptr this_rows;
  for_lt x (λ i,
    r ← new_array sizeof_ptr this_cols;
    store sizeof_ptr this_t i (Ptr r);;
    for_lt y (λ j,
      ti ← load sizeof_ptr this_t i ≫= as_ptr;
      store sizeof_N ti j (Elem zero)));;
  mret {| rows := this_rows; cols := this_cols; t := this_t |}.

(** [Tensor(int x, int y, N** content)] *)
Definition Tensor_buffer (x y : Z) (content : addr) : M Tensor :=
  let this_rows := x in
  let this_cols := y in
  this_t ← new_array sizeof_ptr this_rows;
  for_lt x (λ i,
    r ← new_array sizeof_ptr this_cols;
    store sizeof_ptr this_t i (Ptr r);;
    for_lt y (λ j,
      v ← index2 content i j;
      ti ← load sizeof_ptr this_t i ≫= as_ptr;
      store sizeof_N ti j (Elem v)));;
  mret {| rows := this_rows; cols := this_cols; t := this_t |}.

(** [Tensor(int x, int y, std::vector<std::vector<N>> content)] *)
Definition Tensor_vector (x y : Z) (content : list (list N)) : M Tensor :=
  let this_rows := x in
  let this_cols := y in
  this_t ← new_array sizeof_ptr this_rows;
  for_lt x (λ i,
    r ← new_array sizeof_ptr this_cols;
    store sizeof_ptr this_t i (Ptr r);;
    for_lt y (λ j,
      v ← vector_index2 content i j;
      ti ← load sizeof_ptr this_t i ≫= as_ptr;
      store sizeof_N ti j (Elem v)));;
  mret {| rows := this_rows; cols := this_cols; t := this_t |}.

(** [~Tensor()] *)
Definition destroy (T : Tensor) : M unit :=
  for_lt (rows T) (λ i,
    ti ← load sizeof_ptr (t T) i ≫= as_ptr;
    delete_array ti);;
  delete_array (t T).

(** [int* size()]: the array [s] is local to the call, the result is
    its address. *)
Definition size (T : Tensor) : M addr :=
  s ← local_array sizeof_int [Int (rows T); Int (cols T)];
  end_of_scope s;;
  mret s.

(** [N operator()(int x, int y)] *)
Definition ElementAt (T : Tensor) (x y : Z) : M N :=
  index2 (t T) x y.

(** The three constructors differ only in where the value written to
    [t[i][j]] comes from; [build] is their common shape. *)
Definition build (x y : Z) (src : Z → Z → M N) : M Tensor :=
  this_t ← new_array sizeof_ptr x;
  for_lt x (λ i,
    r ← new_array sizeof_ptr y;
    store sizeof_ptr this_t i (Ptr r);;
    for_lt y (λ j,
      v ← src i j;
      ti ← load sizeof_ptr this_t i ≫= as_ptr;
      store sizeof_N ti j (Elem v)));;
  mret {| rows := x; cols := y; t := this_t |}.

(** ** Specifications *)

(** An [N] is no wider than a pointer: the only case in which a row,
    allocated as [cols] pointers, has room for [cols] elements. *)
Definition fits : Prop := (Z.pos sizeof_N ≤ Z.pos sizeof_ptr)%Z.

(** [wp E m s Q]: running [m] from [s] ends in a result and a state that
    satisfy [Q], or does not return normally and [E] holds.  With
    [E := False] this is total correctness, with [E := True] partial. *)
Definition wp {A} (E : Prop) (m : M A) (s : state) (Q : A → state → Prop) : Prop :=
  match m s with
  | Ok a s' => Q a s'
  | _ => E
  end.

(** The storage a Tensor owns: the outer block, of [rows] pointers, holds
    the row pointers [rs]; row [i], of the size of [cols] pointers, holds
    the elements [vss !! i]. *)
Record owns (T : Tensor) (s : state) (rs : list addr) (vss : list (list N)) : Prop := {
  owns_outer : mem s !! t T = Some (Block (bytes sizeof_ptr (rows T)) (Ptr <$> rs));
  owns_rows :
    Forall2 (λ r vs, mem s !! r = Some (Block (bytes sizeof_ptr (cols T)) (Elem <$> vs)))
            rs vss;
  owns_nodup : NoDup (t T :: rs);
  owns_nrows : Z.of_nat (length rs) = rows T;
  owns_ncols : Forall (λ vs, Z.of_nat (length vs) = cols T) vss;
  owns_fits : (0 < rows T)%Z → (0 < cols T)%Z → fits
}.

(** What a constructor leaves behind when run from [s0]: a Tensor of
    shape [x], [y] that owns fresh blocks, every other block as it was,
    and elements that satisfy [P]. *)
Definition built (s0 : state) (x y : Z) (P : Z → Z → N → Prop)
    (T : Tensor) (s : state) : Prop :=
  rows T = x ∧ cols T = y ∧ released s = released s0 ∧
  ∃ rs vss, owns T s rs vss ∧
    (∀ a, a ∈ t T :: rs → mem s0 !! a = None) ∧
    (∀ a, a ∉ t T :: rs → mem s !! a = mem s0 !! a) ∧
    (∀ i j v, index vss i ≫= (λ vs, index vs j) = Some v → P i j v).

(** The life of a Tensor created from state [s0]: it is constructed,
    then its accessors are called. *)
Inductive alive (s0 : state) (T : Tensor) : state → Prop :=
| born_default x y s :
    Tensor_default x y s0 = Ok T s → alive s0 T s
| born_buffer x y content s :
    Tensor_buffer x y content s0 = Ok T s → alive s0 T s
| born_vector x y content s :
    Tensor_vector x y content s0 = Ok T s → alive s0 T s
| after_size s p s' :
    alive s0 T s → size T s = Ok p s' → alive s0 T s'
| after_ElementAt s i j v s' :
    alive s0 T s → ElementAt T i j s = Ok v s' → alive s0 T s'.

(** The state of the outer loop once rows [0 .. i-1] are built: the
    outer block [a] holds their pointers [rs], the rows hold [vss],
    everything the Tensor owns is fresh with respect to [s0], and the rest
    of the store is as in [s0]. *)
Definition rows_built (s0 : state) (x y : Z) (P : Z → Z → N → Prop)
    (a : addr) (i : Z) (s : state) : Prop :=
  ∃ rs vss,
    Z.of_nat (length rs) = i ∧
    mem s !! a = Some (Block (bytes sizeof_ptr x) (Ptr <$> rs)) ∧
    Forall2 (λ r vs, mem s !! r = Some (Block (bytes sizeof_ptr y) (Elem <$> vs))) rs vss ∧
    NoDup (a :: rs) ∧
    Forall (λ vs, Z.of_nat (length vs) = y) vss ∧
    (∀ b, b ∈ a :: rs → mem s0 !! b = None) ∧
    (∀ b, b ∉ a :: rs → mem s !! b = mem s0 !! b) ∧
    (∀ i' j v, index vss i' ≫= (λ vs, index vs j) = Some v → P i' j v) ∧
    released s = released s0 ∧
    ((0 < i)%Z → (0 < y)%Z → fits).

(** A pointer-of-pointers buffer that holds the matrix [m]: [p] points
    to an array of row pointers, row [i] holds the elements [m !! i];
    each array is at least as large as what it holds. *)
Definition buffer_holds (s : state) (p : addr) (m : list (list N)) : Prop :=
  ∃ rs cap,
    mem s !! p = Some (Block cap (Ptr <$> rs)) ∧
    (bytes sizeof_ptr (Z.of_nat (length rs)) ≤ cap)%Z ∧
    Forall2 (λ r row, ∃ cap',
               mem s !! r = Some (Block cap' (Elem <$> row)) ∧
               (bytes sizeof_N (Z.of_nat (length row)) ≤ cap')%Z) rs m.

(** What the caller of [size] sees when reading slot [k] of the result:
    [int* sz = T.size(); ... sz[k] ...]. *)
Definition read_size (T : Tensor) (k : Z) : M Z :=
  p ← size T;
  load sizeof_int p k ≫= as_int.

(** The value an outcome carries, if any. *)
Definition value_of {A} (o : outcome A) : option A :=
  match o with
  | Ok a _ => Some a
  | _ => None
  end.

(** [m] never raises an exception. *)
Definition no_throw {A} (m : M A) : Prop := ∀ s e, m s ≠ Throws e.

(** The positions [(i, j)] that a Tensor of shape [x], [y] has. *)
Definition in_bounds (x y i j : Z) : Prop := (0 ≤ i < x)%Z ∧ (0 ≤ j < y)%Z.

(** ** The monad and its rules *)

Lemma Tensor_default_build x y :
  Tensor_default x y = build x y (λ _ _, mret zero).
Proof. reflexivity. Qed.

Lemma Tensor_buffer_build x y content :
  Tensor_buffer x y content = build x y (index2 content).
Proof. reflexivity. Qed.

Lemma Tensor_vector_build x y content :
  Tensor_vector x y content = build x y (vector_index2 content).
Proof. reflexivity. Qed.

Lemma wp_total {A} (m : M A) s Q :
  wp False m s Q ↔ ∃ a s', m s = Ok a s' ∧ Q a s'.
Proof.
  unfold wp. destruct (m s) as [a s'| |]; split; try done.
  - eauto.
  - by intros (? & ? & [= <- <-] & ?).
  - by intros (? & ? & ? & _).
  - by intros (? & ? & ? & _).
Qed.

Lemma wp_partial {A} (m : M A) s Q :
  wp True m s Q ↔ ∀ a s', m s = Ok a s' → Q a s'.
Proof.
  unfold wp. destruct (m s) as [a s'| |]; split; try done.
  - by intros ? ? ? [= <- <-].
  - eauto.
Qed.

Lemma wp_ret {A} E (a : A) s Q : Q a s → wp E (mret a) s Q.
Proof. done. Qed.

Lemma wp_bind {A B} E (m : M A) (k : A → M B) s Q :
  wp E m s (λ a s', wp E (k a) s' Q) → wp E (m ≫= k) s Q.
Proof. unfold wp, mbind, M_bind. by destruct (m s). Qed.

Lemma wp_mono {A} E (m : M A) s (Q Q' : A → state → Prop) :
  wp E m s Q → (∀ a s', Q a s' → Q' a s') → wp E m s Q'.
Proof. unfold wp. destruct (m s); auto. Qed.

Lemma wp_new_array E w n s Q :
  ((n < 0)%Z → E) →
  ((0 ≤ n)%Z → ∀ a, mem s !! a = None →
     Q a (State (<[a := Block (bytes w n) []]> (mem s)) (released s))) →
  wp E (new_array w n) s Q.
Proof.
  intros HE HQ. unfold wp, new_array. case_decide; [auto|].
  apply HQ; [lia|]. apply not_elem_of_dom, is_fresh.
Qed.

(** A store inside the block goes on; a store outside it is where the
    run ends. *)
Lemma wp_store E w p i c s b Q :
  mem s !! p = Some b →
  (in_block w b i →
     Q () (State (<[p := Block (capacity b) (write_cell (Z.to_nat i) c (cells b))]> (mem s))
                 (released s))) →
  (¬ in_block w b i → E) →
  wp E (store w p i c) s Q.
Proof.
  intros Hp HQ HE. unfold wp, store. rewrite Hp. case_decide; auto.
Qed.

Lemma wp_load_ptr E w p i s b r Q :
  mem s !! p = Some b → in_block w b i → index (cells b) i = Some (Ptr r) → Q r s →
  wp E (load w p i ≫= as_ptr) s Q.
Proof.
  intros Hp Hin Hi HQ. unfold wp, mbind, M_bind, load. rewrite Hp.
  rewrite decide_True by done. by rewrite Hi.
Qed.

Lemma wp_load_elem E w p i s b v Q :
  mem s !! p = Some b → in_block w b i → index (cells b) i = Some (Elem v) → Q v s →
  wp E (load w p i ≫= as_elem) s Q.
Proof.
  intros Hp Hin Hi HQ. unfold wp, mbind, M_bind, load. rewrite Hp.
  rewrite decide_True by done. by rewrite Hi.
Qed.

Lemma wp_delete_array E p s b Q :
  mem s !! p = Some b →
  Q () (State (delete p (mem s)) (released s ++ [p])) →
  wp E (delete_array p) s Q.
Proof. intros Hp HQ. unfold wp, delete_array. by rewrite Hp. Qed.

(** The loop rule: an invariant indexed by the number of iterations
    already done. *)
Lemma wp_for_each E body l (I : nat → state → Prop) s :
  I 0%nat s →
  (∀ k i s', l !! k = Some i → I k s' → wp E (body i) s' (λ _ s'', I (S k) s'')) →
  wp E (for_each l body) s (λ _ s', I (length l) s').
Proof.
  revert I s. induction l as [|i l IH]; intros I s H0 Hstep; simpl.
  - by apply wp_ret.
  - apply wp_bind. eapply wp_mono; [apply (Hstep 0%nat i s); done|].
    intros [] s1 H1. simpl.
    apply (IH (λ k, I (S k))); [done|].
    intros k i' s' Hk. apply (Hstep (S k)). done.
Qed.

Lemma wp_for_lt E body x (I : Z → state → Prop) s :
  I 0%Z s →
  (∀ i s', (0 ≤ i < x)%Z → I i s' → wp E (body i) s' (λ _ s'', I (i + 1)%Z s'')) →
  wp E (for_lt x body) s (λ _ s', I (Z.max 0 x) s').
Proof.
  intros H0 Hstep. unfold for_lt.
  eapply wp_mono.
  - apply (wp_for_each E body (seqZ 0 x) (λ k, I (Z.of_nat k))); [done|].
    intros k i s' [-> Hk]%lookup_seqZ HI.
    eapply wp_mono; [apply Hstep; [lia|done]|].
    intros [] s''. simpl. by replace (0 + Z.of_nat k + 1)%Z with (Z.of_nat (S k)) by lia.
  - intros [] s'. simpl. rewrite length_seqZ.
    by replace (Z.of_nat (Z.to_nat x)) with (Z.max 0 x) by lia.
Qed.

(** ** Lists as arrays, sizes in bytes *)

Lemma index_nat {A} (l : list A) (i : Z) :
  (0 ≤ i)%Z → index l i = l !! Z.to_nat i.
Proof. intros. unfold index. by rewrite decide_True. Qed.

Lemma index_Some {A} (l : list A) (i : Z) (a : A) :
  index l i = Some a ↔ (0 ≤ i)%Z ∧ l !! Z.to_nat i = Some a.
Proof.
  unfold index. destruct (decide (0 ≤ i)%Z); split; try done; tauto.
Qed.

Lemma index_None {A} (l : list A) (i : Z) :
  index l i = None ↔ (i < 0)%Z ∨ (Z.of_nat (length l) ≤ i)%Z.
Proof.
  unfold index. destruct (decide (0 ≤ i)%Z).
  - rewrite lookup_ge_None. lia.
  - split; [lia|done].
Qed.

Lemma write_cell_end (l : list cell) (c : cell) :
  write_cell (length l) c l = l ++ [c].
Proof.
  unfold write_cell. rewrite decide_False by lia.
  by rewrite Nat.sub_diag.
Qed.

Lemma Forall2_impl_elem {A B} (P Q : A → B → Prop) l k :
  Forall2 P l k → (∀ a b, a ∈ l → P a b → Q a b) → Forall2 Q l k.
Proof.
  induction 1 as [|a b l k Hab _ IH]; intros HPQ; constructor.
  - apply HPQ; [left|done].
  - apply IH. intros a' b' Ha'. apply HPQ. by right.
Qed.

Lemma bytes_mono w n m : (n ≤ m)%Z → (bytes w n ≤ bytes w m)%Z.
Proof. unfold bytes. nia. Qed.

Lemma in_block_lt w n l i :
  (0 ≤ i < n)%Z → in_block w (Block (bytes w n) l) i.
Proof. intros Hi. split; [lia|]. simpl. apply bytes_mono. lia. Qed.

(** [n] elements fit where [n] pointers do exactly when an element is no
    wider than a pointer. *)
Lemma bytes_fits n :
  fits → (0 ≤ n)%Z → (bytes sizeof_N n ≤ bytes sizeof_ptr n)%Z.
Proof. unfold fits, bytes. nia. Qed.

Lemma bytes_fits_inv n :
  (0 < n)%Z → (bytes sizeof_N n ≤ bytes sizeof_ptr n)%Z → fits.
Proof. unfold fits, bytes. nia. Qed.

Lemma in_block_row y l j :
  fits → (0 ≤ j < y)%Z → in_block sizeof_N (Block (bytes sizeof_ptr y) l) j.
Proof.
  intros Hfits Hj. split; [lia|]. simpl.
  etrans; [apply (bytes_mono _ _ y); lia|]. apply bytes_fits; [done|lia].
Qed.

(** ** The construction loops *)

(** The inner loop fills row [r], the target of [this_t[i]], with the
    values [src i 0], [src i 1], ... and touches nothing else.  The row
    has the size of [y] pointers: the stores stay inside it exactly when
    an [N] fits a pointer. *)
Lemma wp_fill_row E (src : Z → Z → M N) (P : Z → Z → N → Prop)
    (s0 s1 : state) (this_t r : addr) (outer : block) (i y : Z) :
  mem s1 !! this_t = Some outer →
  in_block sizeof_ptr outer i →
  index (cells outer) i = Some (Ptr r) →
  this_t ≠ r →
  mem s1 !! r = Some (Block (bytes sizeof_ptr y) []) →
  mem s0 ⊆ mem s1 →
  mem s0 !! r = None →
  ((0 < y)%Z → ¬ fits → E) →
  (∀ j s, (0 ≤ j < y)%Z → mem s0 ⊆ mem s →
     wp E (src i j) s (λ v s', s' = s ∧ P i j v)) →
  wp E (for_lt y (λ j,
          v ← src i j;
          ti ← load sizeof_ptr this_t i ≫= as_ptr;
          store sizeof_N ti j (Elem v))) s1
    (λ _ s', ∃ vs, length vs = Z.to_nat y ∧
       s' = State (<[r := Block (bytes sizeof_ptr y) (Elem <$> vs)]> (mem s1)) (released s1) ∧
       (∀ j v, vs !! j = Some v → P i (Z.of_nat j) v) ∧
       ((0 < y)%Z → fits)).
Proof.
  intros Ht Hin Hi Hne Hr Hsub Hfresh HE Hsrc.
  set (J := λ (j : Z) (s : state), ∃ vs,
    Z.of_nat (length vs) = j ∧
    s = State (<[r := Block (bytes sizeof_ptr y) (Elem <$> vs)]> (mem s1)) (released s1) ∧
    (∀ j' v, vs !! j' = Some v → P i (Z.of_nat j') v) ∧
    ((0 < j)%Z → (bytes sizeof_N j ≤ bytes sizeof_ptr y)%Z)).
  eapply wp_mono; [apply (wp_for_lt E _ y J)|].
  - exists []. split; [done|]. split; [|split; [done|lia]]. simpl.
    rewrite insert_id by done. by destruct s1.
  - intros j s Hj (vs & Hlen & -> & HP & Hroom).
    apply wp_bind. eapply wp_mono.
    { apply Hsrc; [done|]. simpl. by apply insert_subseteq_r. }
    intros v s' [-> HPv]. apply wp_bind.
    eapply wp_load_ptr; [|exact Hin|exact Hi|].
    { simpl. by rewrite lookup_insert_ne. }
    eapply wp_store.
    { simpl. apply lookup_insert_eq. }
    + intros [_ Hcap]. simpl in *. exists (vs ++ [v]).
      split; [rewrite length_app; simpl; lia|]. split; [|split].
      * rewrite insert_insert_eq. do 3 f_equal.
        replace (Z.to_nat j) with (length (Elem <$> vs))
          by (rewrite length_fmap; lia).
        by rewrite write_cell_end, fmap_app.
      * intros j' v' [[_ Hv']|[-> <-]]%lookup_snoc_Some.
        -- by apply HP.
        -- by replace (Z.of_nat (length vs)) with j by lia.
      * done.
    + intros Hout. apply HE; [lia|]. intros Hfits. apply Hout.
      by apply in_block_row.
  - intros [] s' (vs & Hlen & -> & HP & Hroom). exists vs.
    split; [lia|]. split; [done|]. split; [done|].
    intros Hy. apply (bytes_fits_inv y); [done|].
    replace (Z.max 0 y) with y in Hroom by lia. by apply Hroom.
Qed.

Lemma rows_built_extends s0 x y P a i s :
  rows_built s0 x y P a i s → mem s0 ⊆ mem s.
Proof.
  intros (rs & vss & _ & _ & _ & _ & _ & Hfresh & Hframe & _).
  apply map_subseteq_spec. intros b c Hb.
  rewrite Hframe; [done|]. intros Hin. apply Hfresh in Hin. congruence.
Qed.

Lemma wp_build_row E (src : Z → Z → M N) (P : Z → Z → N → Prop)
    (s0 s : state) (a : addr) (x y i : Z) :
  ((y < 0)%Z → E) →
  ((0 < y)%Z → ¬ fits → E) →
  (∀ i j s, (0 ≤ i < x)%Z → (0 ≤ j < y)%Z → mem s0 ⊆ mem s →
     wp E (src i j) s (λ v s', s' = s ∧ P i j v)) →
  (0 ≤ i < x)%Z →
  rows_built s0 x y P a i s →
  wp E (r ← new_array sizeof_ptr y;
        store sizeof_ptr a i (Ptr r);;
        for_lt y (λ j,
          v ← src i j;
          ti ← load sizeof_ptr a i ≫= as_ptr;
          store sizeof_N ti j (Elem v))) s
    (λ _ s', rows_built s0 x y P a (i + 1) s').
Proof.
  intros HE HEw Hsrc Hi Hinv.
  pose proof (rows_built_extends _ _ _ _ _ _ _ Hinv) as Hsub.
  destruct Hinv
    as (rs & vss & Hlen & Ha & Hrows & Hnd & Hcols & Hfresh & Hframe & HP & Hrel & Hfit).
  apply wp_bind, wp_new_array; [done|]. intros Hy r Hr.
  assert (r ≠ a) as Hra by congruence.
  assert (r ∉ rs) as Hrrs.
  { intros Hin. apply list_elem_of_lookup in Hin as [k Hk].
    destruct (Forall2_lookup_l _ _ _ _ _ Hrows Hk) as (vs & _ & Hvs). congruence. }
  assert (mem s0 !! r = None) as Hr0.
  { rewrite <-Hframe; [done|]. rewrite elem_of_cons. tauto. }
  apply wp_bind. eapply wp_store.
  { simpl. rewrite lookup_insert_ne by done. exact Ha. }
  2: { intros Hout. destruct Hout. by apply in_block_lt. }
  intros _. simpl.
  replace (Z.to_nat i) with (length (Ptr <$> rs)) by (rewrite length_fmap; lia).
  rewrite write_cell_end.
  eapply wp_mono.
  { eapply (wp_fill_row E src P s0 _ a r); simpl.
    - apply lookup_insert_eq.
    - by apply in_block_lt.
    - simpl. rewrite index_nat by lia.
      replace (Z.to_nat i) with (length (Ptr <$> rs)) by (rewrite length_fmap; lia).
      by rewrite list_lookup_middle.
    - done.
    - rewrite lookup_insert_ne by done. apply lookup_insert_eq.
    - apply insert_subseteq_r.
      { apply Hfresh. left. }
      by apply insert_subseteq_r.
    - done.
    - done.
    - intros j s' Hj Hs'. by apply Hsrc. }
  intros [] s' (vs & Hvs & -> & HPvs & Hfits). simpl.
  exists (rs ++ [r]), (vss ++ [vs]). repeat split; simpl.
  - rewrite length_app. simpl. lia.
  - rewrite lookup_insert_ne by done. rewrite lookup_insert_eq.
    by rewrite fmap_app.
  - apply Forall2_app.
    + eapply Forall2_impl_elem; [exact Hrows|]. intros r' vs' Hin Hr'.
      rewrite !lookup_insert_ne; [done|..].
      * intros ->. done.
      * intros ->. apply NoDup_cons in Hnd. tauto.
      * intros ->. done.
    + constructor; [|constructor]. apply lookup_insert_eq.
  - apply NoDup_cons in Hnd as [Harss Hnd]. apply NoDup_cons. split.
    + rewrite elem_of_app, list_elem_of_singleton. intros [?|?]; [done|congruence].
    + apply NoDup_app. split; [done|]. split; [|apply NoDup_singleton].
      intros r' Hr' ->%list_elem_of_singleton. done.
  - apply Forall_app. split; [done|]. constructor; [lia|constructor].
  - intros b. rewrite elem_of_cons, elem_of_app, list_elem_of_singleton.
    intros [->|[Hb| ->]]; [apply Hfresh; left|apply Hfresh; by right|done].
  - intros b. rewrite elem_of_cons, elem_of_app, list_elem_of_singleton.
    intros Hb. rewrite !lookup_insert_ne by (intros ?; subst; auto).
    apply Hframe. rewrite elem_of_cons. tauto.
  - intros i' j v. intros (row & Hrow & Hv)%bind_Some.
    apply index_Some in Hrow as [Hi' Hrow]. apply index_Some in Hv as [Hj Hv].
    apply lookup_app_Some in Hrow as [Hrow|[Hge Hrow]].
    + apply HP. rewrite index_nat, Hrow by done. simpl. by rewrite index_nat.
    + assert (length vss = length rs) as Hl by (symmetry; by eapply Forall2_length).
      assert (i' = i) as -> by (apply lookup_lt_Some in Hrow; simpl in Hrow; lia).
      replace (Z.to_nat i - length vss)%nat with 0%nat in Hrow by lia.
      injection Hrow as <-. apply HPvs in Hv. by rewrite Z2Nat.id in Hv.
  - done.
  - intros _. exact Hfits.
Qed.

(** The specification shared by the three constructors.  The source of
    the elements may read the store but must leave it as it is. *)
Lemma wp_build E (src : Z → Z → M N) (P : Z → Z → N → Prop) (s0 : state) (x y : Z) :
  ((x < 0)%Z → E) →
  ((0 < x)%Z → (y < 0)%Z → E) →
  ((0 < x)%Z → (0 < y)%Z → ¬ fits → E) →
  (∀ i j s, (0 ≤ i < x)%Z → (0 ≤ j < y)%Z → mem s0 ⊆ mem s →
     wp E (src i j) s (λ v s', s' = s ∧ P i j v)) →
  wp E (build x y src) s0 (built s0 x y P).
Proof.
  intros HEx HEy HEw Hsrc. unfold build.
  apply wp_bind, wp_new_array; [done|]. intros Hx a Ha.
  apply wp_bind. eapply wp_mono.
  { apply (wp_for_lt E _ x (rows_built s0 x y P a)).
    - exists [], []. simpl. repeat split.
      + apply lookup_insert_eq.
      + constructor.
      + apply NoDup_singleton.
      + constructor.
      + by intros b ->%list_elem_of_singleton.
      + intros b Hb. apply lookup_insert_ne. intros ->. apply Hb. left.
      + intros i' j v. unfold index. by destruct (decide (0 ≤ i')%Z).
      + lia.
    - intros i s Hi Hinv. apply wp_build_row; [| |done..].
      + intros Hy. apply HEy; lia.
      + intros Hy. apply HEw; lia. }
  intros [] s
    (rs & vss & Hlen & Hout & Hrows & Hnd & Hcols & Hfresh & Hframe & HP & Hrel & Hfit).
  apply wp_ret. split; [done|]. split; [done|]. split; [done|].
  exists rs, vss. split; [|done].
  split; simpl; try done.
  - lia.
  - intros Hx' Hy'. apply Hfit; lia.
Qed.

(** *** Where the elements come from *)

Lemma wp_vector_index2 E content i j s (P : N → Prop) :
  (∀ v, index content i ≫= (λ row, index row j) = Some v → P v) →
  (index content i ≫= (λ row, index row j) = None → E) →
  wp E (vector_index2 content i j) s (λ v s', s' = s ∧ P v).
Proof.
  intros HP HE. unfold wp, vector_index2.
  destruct (index content i ≫= _); auto.
Qed.

(** What a successful read [p[i][j]] went through. *)
Lemma index2_Ok_inv p i j s v s' :
  index2 p i j s = Ok v s' →
  s' = s ∧
  ∃ blk r row,
    mem s !! p = Some blk ∧ in_block sizeof_ptr blk i ∧
    index (cells blk) i = Some (Ptr r) ∧
    mem s !! r = Some row ∧ in_block sizeof_N row j ∧
    index (cells row) j = Some (Elem v).
Proof.
  unfold index2, mbind, M_bind, load. intros H.
  destruct (mem s !! p) as [blk|] eqn:Hp; [|done].
  destruct (decide (in_block sizeof_ptr blk i)) as [Hin|]; [|done].
  destruct (index (cells blk) i) as [[| |r|]|] eqn:Hi; simpl in H; try done.
  destruct (mem s !! r) as [row|] eqn:Hr; [|done].
  destruct (decide (in_block sizeof_N row j)) as [Hin'|]; [|done].
  destruct (index (cells row) j) as [[|w| |]|] eqn:Hj; simpl in H; try done.
  injection H as -> <-. split; [done|]. by exists blk, r, row.
Qed.

Lemma index2_Ok p i j s blk r row v :
  mem s !! p = Some blk → in_block sizeof_ptr blk i →
  index (cells blk) i = Some (Ptr r) →
  mem s !! r = Some row → in_block sizeof_N row j →
  index (cells row) j = Some (Elem v) →
  index2 p i j s = Ok v s.
Proof.
  intros Hp Hin Hi Hr Hin' Hj.
  assert (wp False (index2 p i j) s (λ v' s', v' = v ∧ s' = s)) as Hwp.
  { unfold index2. apply wp_bind.
    eapply wp_load_ptr; [exact Hp|exact Hin|exact Hi|].
    by eapply wp_load_elem. }
  by apply wp_total in Hwp as (v' & s' & Heq & -> & ->).
Qed.

(** Reading [p[i][j]] leaves the state as it is. *)
Lemma index2_state p i j s v s' : index2 p i j s = Ok v s' → s' = s.
Proof. by intros [-> _]%index2_Ok_inv. Qed.

(** A read that succeeds still succeeds, with the same value, in a
    store with more blocks. *)
Lemma index2_extends p i j s v s' :
  index2 p i j s = Ok v s → mem s ⊆ mem s' → index2 p i j s' = Ok v s'.
Proof.
  intros (_ & blk & r & row & Hp & Hin & Hi & Hr & Hin' & Hj)%index2_Ok_inv Hsub.
  eapply index2_Ok; try done; by eapply lookup_weaken.
Qed.

Lemma wp_index2_any p i j s :
  wp True (index2 p i j) s (λ _ s', s' = s ∧ True).
Proof.
  unfold wp. destruct (index2 p i j s) as [v s'| |] eqn:H; [|done..].
  split; [|done]. by eapply index2_state.
Qed.

(** ** What a Tensor owns *)

Lemma owns_live T s rs vss a :
  owns T s rs vss → a ∈ t T :: rs → is_Some (mem s !! a).
Proof.
  intros [Hout Hrows _ _ _ _] [->|Hin]%elem_of_cons; [by eexists|].
  apply list_elem_of_lookup in Hin as [k Hk].
  destruct (Forall2_lookup_l _ _ _ _ _ Hrows Hk) as (vs & _ & Hvs). by eexists.
Qed.

(** Ownership only looks at the owned blocks. *)
Lemma owns_transfer T s s' rs vss :
  owns T s rs vss →
  (∀ a, a ∈ t T :: rs → mem s' !! a = mem s !! a) →
  owns T s' rs vss.
Proof.
  intros [Hout Hrows Hnd Hnr Hnc Hfit] Hsame. split; try done.
  - rewrite Hsame; [done|left].
  - eapply Forall2_impl_elem; [exact Hrows|]. intros r vs Hr Hvs.
    rewrite Hsame; [done|by right].
Qed.

Lemma owns_in_bounds T s rs vss i j :
  owns T s rs vss → in_bounds (rows T) (cols T) i j →
  is_Some (index vss i ≫= (λ vs, index vs j)).
Proof.
  intros [Hout Hrows Hnd Hnr Hnc _] [Hi Hj].
  destruct (lookup_lt_is_Some_2 rs (Z.to_nat i)) as [r Hr]; [lia|].
  destruct (Forall2_lookup_l _ _ _ _ _ Hrows Hr) as (vs & Hvs & _).
  eapply Forall_lookup_1 in Hnc; [|exact Hvs].
  destruct (lookup_lt_is_Some_2 vs (Z.to_nat j)) as [v Hv]; [lia|].
  exists v. rewrite index_nat, Hvs by lia. simpl. by rewrite index_nat by lia.
Qed.

Lemma owns_ElementAt T s rs vss i j v :
  owns T s rs vss →
  index vss i ≫= (λ vs, index vs j) = Some v →
  ElementAt T i j s = Ok v s.
Proof.
  intros [Hout Hrows Hnd Hnr Hnc Hfit]
    (vs & [Hi Hvs]%index_Some & [Hj Hv]%index_Some)%bind_Some.
  destruct (Forall2_lookup_r _ _ _ _ _ Hrows Hvs) as (r & Hr & Hmem).
  eapply Forall_lookup_1 in Hnc; [|exact Hvs].
  apply lookup_lt_Some in Hr as Hlt. apply lookup_lt_Some in Hv as Hlt'.
  unfold ElementAt. eapply index2_Ok; [exact Hout| | |exact Hmem| |].
  - apply in_block_lt. lia.
  - simpl. rewrite index_nat by done. by rewrite list_lookup_fmap, Hr.
  - apply in_block_row; [|lia]. apply Hfit; lia.
  - simpl. rewrite index_nat by done. by rewrite list_lookup_fmap, Hv.
Qed.


(** Same values at every position of the shape, in two states. *)
Lemma owns_same_values T s s' rs vss i j :
  owns T s rs vss → owns T s' rs vss → in_bounds (rows T) (cols T) i j →
  ∃ v, ElementAt T i j s = Ok v s ∧ ElementAt T i j s' = Ok v s'.
Proof.
  intros Hs Hs' Hij. destruct (owns_in_bounds _ _ _ _ _ _ Hs Hij) as [v Hv].
  exists v. split; by eapply owns_ElementAt.
Qed.

(** ** What follows from [built] *)

Lemma built_weaken s0 x y (P P' : Z → Z → N → Prop) T s :
  built s0 x y P T s → (∀ i j v, P i j v → P' i j v) → built s0 x y P' T s.
Proof.
  intros (Hr & Hc & Hrel & rs & vss & Hown & Hfresh & Hframe & HP) HPP'.
  repeat (split; [done|]). exists rs, vss. repeat (split; [done|]).
  intros i j v Hv. by apply HPP', HP.
Qed.

Lemma built_ElementAt s0 x y P T s i j :
  built s0 x y P T s → (0 ≤ i < x)%Z → (0 ≤ j < y)%Z →
  ∃ v, ElementAt T i j s = Ok v s ∧ P i j v.
Proof.
  intros (<- & <- & Hrel & rs & vss & Hown & _ & _ & HP) Hi Hj.
  destruct (owns_in_bounds _ _ _ _ i j Hown) as [v Hv]; [done|].
  exists v. split; [by eapply owns_ElementAt|by apply HP].
Qed.

(** A constructor that returns with a non-empty shape has stored every
    element inside its row: an [N] fits a pointer. *)
Lemma built_fits s0 x y P T s :
  built s0 x y P T s → (0 < x)%Z → (0 < y)%Z → fits.
Proof.
  intros (<- & <- & _ & rs & vss & Hown & _) Hx Hy. by apply Hown.
Qed.

(** ** The constructors *)

(** Every successful construction ends in [built]. *)
Lemma Tensor_default_built x y s0 T s :
  Tensor_default x y s0 = Ok T s → built s0 x y (λ _ _ v, v = zero) T s.
Proof.
  rewrite Tensor_default_build. revert T s. apply wp_partial.
  apply wp_build; [done..|]. intros. by apply wp_ret.
Qed.

Lemma Tensor_vector_built x y content s0 T s :
  Tensor_vector x y content s0 = Ok T s →
  built s0 x y (λ i j v, index content i ≫= (λ row, index row j) = Some v) T s.
Proof.
  rewrite Tensor_vector_build. revert T s. apply wp_partial.
  apply wp_build; [done..|]. intros. by apply wp_vector_index2.
Qed.

Lemma Tensor_buffer_built x y content s0 T s :
  Tensor_buffer x y content s0 = Ok T s → built s0 x y (λ _ _ _, True) T s.
Proof.
  rewrite Tensor_buffer_build. revert T s. apply wp_partial.
  apply wp_build; [done..|]. intros. apply wp_index2_any.
Qed.

(** With non-negative dimensions, elements that fit their rows and a
    source that has the elements, the construction succeeds. *)
Lemma Tensor_default_total x y s0 :
  (0 ≤ x)%Z → (0 ≤ y)%Z → ((0 < x)%Z → (0 < y)%Z → fits) →
  ∃ T s, Tensor_default x y s0 = Ok T s ∧ built s0 x y (λ _ _ v, v = zero) T s.
Proof.
  intros Hx Hy Hfits. rewrite Tensor_default_build. apply wp_total.
  apply wp_build; [lia..|tauto|]. intros. by apply wp_ret.
Qed.

Lemma Tensor_vector_total x y content s0 :
  (0 ≤ x)%Z → (0 ≤ y)%Z → ((0 < x)%Z → (0 < y)%Z → fits) →
  (∀ i j, (0 ≤ i < x)%Z → (0 ≤ j < y)%Z →
     is_Some (index content i ≫= (λ row, index row j))) →
  ∃ T s, Tensor_vector x y content s0 = Ok T s ∧
    built s0 x y (λ i j v, index content i ≫= (λ row, index row j) = Some v) T s.
Proof.
  intros Hx Hy Hfits Hsrc. rewrite Tensor_vector_build. apply wp_total.
  apply wp_build; [lia..|tauto|]. intros i j s Hi Hj _.
  apply wp_vector_index2; [done|]. intros Hnone.
  destruct (Hsrc i j Hi Hj) as [v Hv]. congruence.
Qed.

Lemma Tensor_buffer_total x y content s0 :
  (0 ≤ x)%Z → (0 ≤ y)%Z → ((0 < x)%Z → (0 < y)%Z → fits) →
  (∀ i j, (0 ≤ i < x)%Z → (0 ≤ j < y)%Z →
     ∃ v, index2 content i j s0 = Ok v s0) →
  ∃ T s, Tensor_buffer x y content s0 = Ok T s ∧
    built s0 x y (λ i j v, index2 content i j s0 = Ok v s0) T s.
Proof.
  intros Hx Hy Hfits Hsrc. rewrite Tensor_buffer_build. apply wp_total.
  apply wp_build; [lia..|tauto|]. intros i j s Hi Hj Hsub.
  destruct (Hsrc i j Hi Hj) as [v Hv].
  unfold wp. by rewrite (index2_extends _ _ _ _ _ _ Hv Hsub).
Qed.

(** A Tensor built from a buffer whose in-bounds positions can be read
    holds what was read. *)
Lemma Tensor_buffer_built_src x y content s0 T s :
  (∀ i j, (0 ≤ i < x)%Z → (0 ≤ j < y)%Z → ∃ v, index2 content i j s0 = Ok v s0) →
  Tensor_buffer x y content s0 = Ok T s →
  built s0 x y (λ i j v, index2 content i j s0 = Ok v s0) T s.
Proof.
  intros Hsrc. rewrite Tensor_buffer_build. revert T s. apply wp_partial.
  apply wp_build; [done..|]. intros i j s Hi Hj Hsub.
  destruct (Hsrc i j Hi Hj) as [v Hv].
  unfold wp. by rewrite (index2_extends _ _ _ _ _ _ Hv Hsub).
Qed.

(** ** The accessors *)

(** [size] returns the address of its local array and leaves the state
    exactly as it found it: the array is gone again. *)
Lemma size_run T s : size T s = Ok (fresh (dom (mem s))) s.
Proof.
  unfold size, mbind, M_bind, local_array, end_of_scope. simpl.
  rewrite delete_insert_id by apply not_elem_of_dom, is_fresh.
  by destruct s.
Qed.

Lemma size_state T s p s' : size T s = Ok p s' → s' = s.
Proof. rewrite size_run. by intros [= _ <-]. Qed.

Lemma size_dangling T s p s' w k :
  size T s = Ok p s' → load w p k s' = Undefined.
Proof.
  rewrite size_run. intros [= <- <-]. unfold load.
  by rewrite (proj1 (not_elem_of_dom _ _) (is_fresh _)).
Qed.

Lemma read_size_undefined T k s : read_size T k s = Undefined.
Proof.
  unfold read_size, mbind, M_bind. rewrite size_run.
  unfold load. by rewrite (proj1 (not_elem_of_dom _ _) (is_fresh _)).
Qed.

Lemma ElementAt_state T i j s v s' : ElementAt T i j s = Ok v s' → s' = s.
Proof. apply index2_state. Qed.

(** ** Lifetime *)

Lemma alive_built s0 T s :
  alive s0 T s → built s0 (rows T) (cols T) (λ _ _ _, True) T s.
Proof.
  induction 1 as [x y s H|x y c s H|x y c s H|s p s' _ IH H|s i j v s' _ IH H].
  - apply Tensor_default_built in H.
    pose proof H as (<- & <- & _). by eapply built_weaken.
  - apply Tensor_buffer_built in H. by pose proof H as (<- & <- & _).
  - apply Tensor_vector_built in H.
    pose proof H as (<- & <- & _). by eapply built_weaken.
  - by apply size_state in H as ->.
  - by apply ElementAt_state in H as ->.
Qed.

Lemma alive_owns s0 T s :
  alive s0 T s →
  ∃ rs vss, owns T s rs vss ∧
    (∀ a, a ∈ t T :: rs → mem s0 !! a = None) ∧
    (∀ a, a ∉ t T :: rs → mem s !! a = mem s0 !! a) ∧
    released s = released s0.
Proof.
  intros (_ & _ & Hrel & rs & vss & Hown & Hfresh & Hframe & _)%alive_built.
  by exists rs, vss.
Qed.

(** ** The destructor *)

Lemma wp_destroy T s rs vss :
  owns T s rs vss →
  wp False (destroy T) s (λ _ s',
    released s' = released s ++ rs ++ [t T] ∧
    ∀ b, mem s' !! b = if decide (b ∈ t T :: rs) then None else mem s !! b).
Proof.
  intros [Hout Hrows Hnd Hnr Hnc _].
  apply NoDup_cons in Hnd as [Ht Hnd].
  set (I := λ (i : Z) (s' : state),
    released s' = released s ++ take (Z.to_nat i) rs ∧
    ∀ b, mem s' !! b = if decide (b ∈ take (Z.to_nat i) rs) then None else mem s !! b).
  unfold destroy. apply wp_bind. eapply wp_mono.
  { apply (wp_for_lt False _ (rows T) I).
    - split; [simpl; by rewrite app_nil_r|].
      intros b. destruct (decide (b ∈ take (Z.to_nat 0) rs)) as [Hin|]; [|done].
      simpl in Hin. by apply elem_of_nil in Hin.
    - intros i s' Hi [Hrel Hmem].
      destruct (lookup_lt_is_Some_2 rs (Z.to_nat i)) as [r Hr]; [lia|].
      destruct (Forall2_lookup_l _ _ _ _ _ Hrows Hr) as (vs & _ & Hvs).
      assert (r ∉ take (Z.to_nat i) rs) as Hfirst.
      { intros (k & Hk & Hlt)%elem_of_take.
        pose proof (NoDup_lookup _ _ _ _ Hnd Hk Hr). lia. }
      apply wp_bind. eapply wp_load_ptr.
      { rewrite Hmem, decide_False; [exact Hout|].
        intros Hin%elem_of_take. destruct Hin as (k & Hk%list_elem_of_lookup_2 & _). done. }
      { by apply in_block_lt. }
      { simpl. rewrite index_nat by lia. by rewrite list_lookup_fmap, Hr. }
      eapply wp_delete_array.
      { rewrite Hmem, decide_False by done. exact Hvs. }
      unfold I. simpl.
      replace (Z.to_nat (i + 1)) with (S (Z.to_nat i)) by lia.
      rewrite (take_S_r _ _ _ Hr). split.
      + by rewrite Hrel, <-app_assoc.
      + intros b. rewrite lookup_delete, Hmem.
        destruct (decide (r = b)) as [->|Hne].
        * rewrite decide_True; [done|]. apply elem_of_app. right. left.
        * destruct (decide (b ∈ take (Z.to_nat i) rs)) as [Hin|Hnin].
          -- rewrite decide_True; [done|]. apply elem_of_app. by left.
          -- rewrite decide_False; [done|].
             rewrite elem_of_app, list_elem_of_singleton.
             intros [?|?]; [done|congruence]. }
  intros [] s' [Hrel Hmem]. simpl in *.
  rewrite take_ge in Hrel, Hmem by lia.
  eapply wp_delete_array.
  { rewrite Hmem, decide_False by done. exact Hout. }
  split; simpl.
  - by rewrite Hrel, <-app_assoc.
  - intros b. rewrite lookup_delete, Hmem.
    destruct (decide (t T = b)) as [->|Hne].
    + rewrite decide_True; [done|]. left.
    + destruct (decide (b ∈ rs)) as [Hin|Hnin].
      * rewrite decide_True; [done|]. by right.
      * rewrite decide_False; [done|]. rewrite elem_of_cons.
        intros [?|?]; [congruence|done].
Qed.

(** Destroying a Tensor built from [s0] gives back the store of [s0]. *)
Lemma built_destroy s0 x y P T s :
  built s0 x y P T s →
  ∃ rs s',
    destroy T s = Ok () s' ∧
    mem s !! t T = Some (Block (bytes sizeof_ptr (rows T)) (Ptr <$> rs)) ∧
    Z.of_nat (length rs) = rows T ∧
    NoDup (rs ++ [t T]) ∧
    released s' = released s ++ rs ++ [t T] ∧
    mem s' = mem s0.
Proof.
  intros (Hr & Hc & Hrel & rs & vss & Hown & Hfresh & Hframe & _).
  pose proof (wp_destroy T s rs vss Hown) as Hd.
  apply wp_total in Hd as ([] & s' & Hrun & Hrel' & Hmem').
  exists rs, s'. split; [done|].
  destruct Hown as [Hout Hrows Hnd Hnr Hnc _].
  split; [done|]. split; [done|]. split.
  { apply NoDup_cons in Hnd as [Ht Hnd]. apply NoDup_app.
    split; [done|]. split; [|apply NoDup_singleton].
    by intros b Hb ->%list_elem_of_singleton. }
  split; [done|].
  apply map_eq. intros b. rewrite Hmem'. case_decide.
  - symmetry. by apply Hfresh.
  - by apply Hframe.
Qed.

(** ** Source buffers *)


Lemma buffer_holds_extends s s' p m :
  buffer_holds s p m → mem s ⊆ mem s' → buffer_holds s' p m.
Proof.
  intros (rs & cap & Hp & Hcap & Hrows) Hsub. exists rs, cap.
  split; [by eapply lookup_weaken|]. split; [done|].
  eapply Forall2_impl; [exact Hrows|]. intros r row (cap' & Hr & Hcap'). simpl in *.
  exists cap'. split; [|done]. exact (lookup_weaken _ _ _ _ Hr Hsub).
Qed.

(** What is read from a buffer that holds [m] is an element of [m]. *)
Lemma buffer_holds_index2_inv s p m i j v s' :
  buffer_holds s p m → index2 p i j s = Ok v s' →
  index m i ≫= (λ row, index row j) = Some v.
Proof.
  intros (rs & cap & Hp & _ & Hrows)
    (_ & blk & r & row & Hblk & _ & Hi & Hr & _ & Hj)%index2_Ok_inv.
  rewrite Hp in Hblk. injection Hblk as <-. simpl in Hi.
  apply index_Some in Hi as [Hi0 Hi]. apply index_Some in Hj as [Hj0 Hj].
  rewrite list_lookup_fmap in Hi.
  destruct (rs !! Z.to_nat i) as [r'|] eqn:Hri; simpl in Hi; [|done].
  injection Hi as ->.
  destruct (Forall2_lookup_l _ _ _ _ _ Hrows Hri) as (vs & Hvs & cap' & Hmem & _).
  rewrite Hmem in Hr. injection Hr as <-. simpl in Hj.
  rewrite list_lookup_fmap in Hj.
  destruct (vs !! Z.to_nat j) as [w|] eqn:Hw; simpl in Hj; [|done].
  injection Hj as ->.
  rewrite index_nat, Hvs by done. simpl. by rewrite index_nat.
Qed.

(** ** Exceptions *)

Lemma no_throw_ret {A} (a : A) : no_throw (mret a).
Proof. by intros s e. Qed.

Lemma no_throw_bind {A B} (m : M A) (k : A → M B) :
  no_throw m → (∀ a, no_throw (k a)) → no_throw (m ≫= k).
Proof.
  intros Hm Hk s e. unfold mbind, M_bind.
  destruct (m s) as [a s'|e'|] eqn:Hms; [apply Hk| |done].
  by destruct (Hm s e').
Qed.

Lemma no_throw_load w p i : no_throw (load w p i).
Proof.
  intros s e. unfold load. destruct (mem s !! p) as [b|]; [|done].
  case_decide; [|done]. by destruct (index (cells b) i) as [[]|].
Qed.

Lemma no_throw_store w p i c : no_throw (store w p i c).
Proof.
  intros s e. unfold store. destruct (mem s !! p); [|done]. by case_decide.
Qed.

Lemma no_throw_as_ptr c : no_throw (as_ptr c).
Proof. by destruct c. Qed.

Lemma no_throw_as_elem c : no_throw (as_elem c).
Proof. by destruct c. Qed.

Lemma no_throw_index2 p i j : no_throw (index2 p i j).
Proof.
  apply no_throw_bind.
  - apply no_throw_bind; [apply no_throw_load|apply no_throw_as_ptr].
  - intros r. apply no_throw_bind; [apply no_throw_load|apply no_throw_as_elem].
Qed.

Lemma no_throw_vector_index2 content i j : no_throw (vector_index2 content i j).
Proof. intros s e. unfold vector_index2. by destruct (index content i ≫= _). Qed.

Lemma no_throw_new_array w n : (0 ≤ n)%Z → no_throw (new_array w n).
Proof. intros Hn s e. unfold new_array. by rewrite decide_False by lia. Qed.

Lemma no_throw_for_each l body :
  (∀ i, i ∈ l → no_throw (body i)) → no_throw (for_each l body).
Proof.
  induction l as [|i l IH]; intros Hbody; simpl.
  - apply no_throw_ret.
  - apply no_throw_bind; [apply Hbody; left|].
    intros _. apply IH. intros i' Hi'. apply Hbody. by right.
Qed.

Lemma no_throw_for_lt x body :
  (∀ i, (0 ≤ i < x)%Z → no_throw (body i)) → no_throw (for_lt x body).
Proof.
  intros Hbody. apply no_throw_for_each.
  intros i Hi%elem_of_seqZ. apply Hbody. lia.
Qed.

Lemma no_throw_build x y src :
  (0 ≤ x)%Z → ((0 < x)%Z → (0 ≤ y)%Z) → (∀ i j, no_throw (src i j)) →
  no_throw (build x y src).
Proof.
  intros Hx Hy Hsrc. unfold build.
  apply no_throw_bind; [by apply no_throw_new_array|]. intros a.
  apply no_throw_bind; [|intros; apply no_throw_ret].
  apply no_throw_for_lt. intros i Hi.
  apply no_throw_bind; [apply no_throw_new_array, Hy; lia|]. intros r.
  apply no_throw_bind; [apply no_throw_store|]. intros _.
  apply no_throw_for_lt. intros j Hj.
  apply no_throw_bind; [apply Hsrc|]. intros v.
  apply no_throw_bind; [|intros; apply no_throw_store].
  apply no_throw_bind; [apply no_throw_load|apply no_throw_as_ptr].
Qed.

(** The new-expressions are the only source of exceptions: a constructor
    throws exactly when it evaluates one with a negative length. *)
Lemma build_throws x y src s0 :
  (∀ i j, no_throw (src i j)) →
  build x y src s0 = Throws bad_array_new_length ↔
  (x < 0)%Z ∨ ((0 < x)%Z ∧ (y < 0)%Z).
Proof.
  intros Hsrc. split.
  - intros Hrun.
    destruct (decide (x < 0)%Z); [by left|].
    destruct (decide (0 < x ∧ y < 0)%Z); [by right|].
    destruct (no_throw_build x y src) with (s := s0) (e := bad_array_new_length);
      [lia|lia|done|done].
  - intros [Hx|[Hx Hy]].
    + unfold build, mbind, M_bind, new_array. by rewrite decide_True.
    + unfold build, for_lt. rewrite (seqZ_cons 0 x) by done. simpl.
      unfold mbind, M_bind, new_array.
      rewrite decide_False by lia. simpl. by rewrite decide_True.
Qed.

Lemma Tensor_default_throws x y s0 :
  Tensor_default x y s0 = Throws bad_array_new_length ↔
  (x < 0)%Z ∨ ((0 < x)%Z ∧ (y < 0)%Z).
Proof.
  rewrite Tensor_default_build. apply build_throws. intros; apply no_throw_ret.
Qed.

(** ** Elements wider than a pointer *)

(** A row is [new N*[cols]]: when an [N] is wider than a pointer, its
    last element does not lie inside it. *)
Lemma row_too_small y l :
  ¬ fits → (0 < y)%Z → ¬ in_block sizeof_N (Block (bytes sizeof_ptr y) l) (y - 1).
Proof.
  intros Hwide Hy [_ Hcap]. simpl in Hcap. apply Hwide.
  apply (bytes_fits_inv y); [done|]. by replace (y - 1 + 1)%Z with y in Hcap by lia.
Qed.

(** A constructor that is asked for a non-empty shape of elements wider
    than a pointer runs into undefined behaviour: it neither returns nor
    throws. *)
Lemma build_wide_undefined x y src s0 P :
  (Z.pos sizeof_ptr < Z.pos sizeof_N)%Z → (0 < x)%Z → (0 < y)%Z →
  (∀ i j, no_throw (src i j)) →
  (∀ T s, build x y src s0 = Ok T s → built s0 x y P T s) →
  build x y src s0 = Undefined.
Proof.
  intros Hwide Hx Hy Hsrc Hbuilt.
  destruct (build x y src s0) as [T s|e|] eqn:Hrun; [| |done].
  - pose proof (built_fits _ _ _ _ _ _ (Hbuilt T s eq_refl) Hx Hy) as Hfits.
    unfold fits in Hfits. lia.
  - destruct e. apply build_throws in Hrun; [lia|done].
Qed.

(** * The properties *)

(** When an [N] fits a pointer, the two copying constructors do what is
    expected of them: with non-negative dimensions and a source that has
    the [x * y] positions, construction succeeds and [ElementAt T i j]
    returns the value supplied at [(i, j)]. *)
Lemma fitting_ElementAt_returns_source_value :
  fits →
  (∀ x y content s0,
     (0 ≤ x)%Z → (0 ≤ y)%Z →
     (∀ i j, (0 ≤ i < x)%Z → (0 ≤ j < y)%Z → ∃ v, index2 content i j s0 = Ok v s0) →
     ∃ T s, Tensor_buffer x y content s0 = Ok T s ∧
       ∀ i j, (0 ≤ i < x)%Z → (0 ≤ j < y)%Z →
         ∃ v, index2 content i j s0 = Ok v s0 ∧ ElementAt T i j s = Ok v s)
  ∧
  (∀ x y content s0,
     (0 ≤ x)%Z → (0 ≤ y)%Z →
     (∀ i j, (0 ≤ i < x)%Z → (0 ≤ j < y)%Z →
        is_Some (index content i ≫= (λ row, index row j))) →
     ∃ T s, Tensor_vector x y content s0 = Ok T s ∧
       ∀ i j, (0 ≤ i < x)%Z → (0 ≤ j < y)%Z →
         ∃ v, index content i ≫= (λ row, index row j) = Some v ∧
              ElementAt T i j s = Ok v s).
Proof.
  intros Hfits. split.
  - intros x y content s0 Hx Hy Hsrc.
    destruct (Tensor_buffer_total x y content s0 Hx Hy) as (T & s & Hrun & Hb);
      [done..|].
    exists T, s. split; [done|]. intros i j Hi Hj.
    destruct (built_ElementAt _ _ _ _ _ _ i j Hb Hi Hj) as (v & Hat & Hv). eauto.
  - intros x y content s0 Hx Hy Hsrc.
    destruct (Tensor_vector_total x y content s0 Hx Hy) as (T & s & Hrun & Hb);
      [done..|].
    exists T, s. split; [done|]. intros i j Hi Hj.
    destruct (built_ElementAt _ _ _ _ _ _ i j Hb Hi Hj) as (v & Hat & Hv). eauto.
Qed.

(** When an [N] fits a pointer, default construction with non-negative
    dimensions succeeds and every element is the zero of [N]. *)
Lemma fitting_default_constructed_all_zero x y s0 :
  fits → (0 ≤ x)%Z → (0 ≤ y)%Z →
  ∃ T s, Tensor_default x y s0 = Ok T s ∧ rows T = x ∧ cols T = y ∧
    ∀ i j, (0 ≤ i < x)%Z → (0 ≤ j < y)%Z → ElementAt T i j s = Ok zero s.
Proof.
  intros Hfits Hx Hy.
  destruct (Tensor_default_total x y s0 Hx Hy) as (T & s & Hrun & Hb); [done|].
  exists T, s. split; [done|]. pose proof Hb as (Hr & Hc & _).
  split; [done|]. split; [done|]. intros i j Hi Hj.
  by destruct (built_ElementAt _ _ _ _ _ _ i j Hb Hi Hj) as (v & Hat & ->).
Qed.

(** C1 (what the code does instead). The constructors from a buffer and
    from a nested sequence allocate every row as [new N*[cols]], an array
    of [cols] pointers, and store [cols] values of type [N] into it.  For
    an [N] wider than a pointer and a non-empty shape the stores run past
    the row: the construction is undefined behaviour, whatever the source
    holds, and no Tensor is there whose [ElementAt] could return the
    values supplied. *)
Theorem wide_element_copy_construction_undefined (x y : Z) :
  (Z.pos sizeof_ptr < Z.pos sizeof_N)%Z → (0 < x)%Z → (0 < y)%Z →
  (∀ content s0, Tensor_buffer x y content s0 = Undefined) ∧
  (∀ content s0, Tensor_vector x y content s0 = Undefined).
Proof.
  intros Hwide Hx Hy. split; intros content s0.
  - rewrite Tensor_buffer_build.
    apply (build_wide_undefined _ _ _ _ (λ _ _ _, True)); [done..| |].
    + intros; apply no_throw_index2.
    + intros T s. rewrite <-Tensor_buffer_build. apply Tensor_buffer_built.
  - rewrite Tensor_vector_build.
    apply (build_wide_undefined _ _ _ _
             (λ i j v, index content i ≫= (λ row, index row j) = Some v));
      [done..| |].
    + intros; apply no_throw_vector_index2.
    + intros T s. rewrite <-Tensor_vector_build. apply Tensor_vector_built.
Qed.

(** C2 (what the code does instead). The default constructor allocates
    every row as [new N*[cols]] and assigns [0] to [cols] slots of type
    [N].  For an [N] wider than a pointer and a non-empty shape (the
    [2 x 3] grid among them) the assignments run past the row: the
    construction is undefined behaviour and yields no all-zero grid. *)
Theorem wide_element_default_construction_undefined (x y : Z) (s0 : state) :
  (Z.pos sizeof_ptr < Z.pos sizeof_N)%Z → (0 < x)%Z → (0 < y)%Z →
  Tensor_default x y s0 = Undefined.
Proof.
  intros Hwide Hx Hy. rewrite Tensor_default_build.
  apply (build_wide_undefined _ _ _ _ (λ _ _ v, v = zero)); [done..| |].
  - intros; apply no_throw_ret.
  - intros T s. rewrite <-Tensor_default_build. apply Tensor_default_built.
Qed.

(** C3 (what the code does instead). [size] returns the address of an
    array that is local to the call: for every Tensor the call succeeds,
    leaves the state as it was, and the pointer it returns refers to no
    live block, so reading either slot through it is undefined behaviour.
    The shape is not returned by value. *)
Theorem size_returns_dangling_pointer (T : Tensor) (s : state) :
  ∃ p, size T s = Ok p s ∧ mem s !! p = None ∧
       ∀ k, load sizeof_int p k s = Undefined ∧ read_size T k s = Undefined.
Proof.
  exists (fresh (dom (mem s))). split; [apply size_run|]. split.
  { apply not_elem_of_dom, is_fresh. }
  intros k. split; [|apply read_size_undefined].
  apply (size_dangling T s _ s sizeof_int k), size_run.
Qed.

(** C5 (what the code does instead). A row is allocated as [cols]
    pointers.  For an [N] wider than a pointer such a block is smaller
    than [cols] elements, and no constructor establishes the storage
    shape: a Tensor that is alive has an empty shape. *)
Theorem wide_element_rows_cannot_hold_cols_elements :
  (Z.pos sizeof_ptr < Z.pos sizeof_N)%Z →
  (∀ y s r s', (0 < y)%Z → new_array sizeof_ptr y s = Ok r s' →
     ∃ b, mem s' !! r = Some b ∧ (capacity b < bytes sizeof_N y)%Z) ∧
  (∀ s0 T s, alive s0 T s → (rows T ≤ 0)%Z ∨ (cols T ≤ 0)%Z).
Proof.
  intros Hwide. split.
  - intros y s r s' Hy. unfold new_array. case_decide; [done|].
    intros [= <- <-]. eexists. split; [apply lookup_insert_eq|].
    simpl. unfold bytes. nia.
  - intros s0 T s Hb%alive_built.
    destruct (decide (0 < rows T)%Z); [|lia].
    destruct (decide (0 < cols T)%Z); [|lia].
    pose proof (built_fits _ _ _ _ _ _ Hb) as Hfits. unfold fits in Hfits. lia.
Qed.

(** C6 (what the code does instead). [ElementAt] reads [t[row][col]] at
    type [N] from a row that was allocated as [cols] pointers.  For an [N]
    wider than a pointer the access to the last column, which is within
    the shape, lies outside the row block, whatever the block holds:
    undefined behaviour. *)
Theorem wide_element_access_outside_row
    (T : Tensor) (s : state) (blk : block) (r : addr) (b : block) (row : Z) :
  (Z.pos sizeof_ptr < Z.pos sizeof_N)%Z →
  mem s !! t T = Some blk →
  index (cells blk) row = Some (Ptr r) →
  mem s !! r = Some b →
  capacity b = bytes sizeof_ptr (cols T) →
  (0 < cols T)%Z →
  ElementAt T row (cols T - 1) s = Undefined.
Proof.
  intros Hwide Hblk Hrow Hr Hcap Hcols.
  destruct (ElementAt T row (cols T - 1) s) as [v s'|e|] eqn:Hrun; [| |done].
  - apply index2_Ok_inv in Hrun
      as (_ & blk' & r' & b' & Hblk' & _ & Hrow' & Hr' & Hin & _).
    rewrite Hblk in Hblk'. injection Hblk' as <-.
    rewrite Hrow in Hrow'. injection Hrow' as <-.
    rewrite Hr in Hr'. injection Hr' as <-.
    destruct b as [cap l]. simpl in Hcap. subst cap.
    destruct (row_too_small (cols T) l); [unfold fits; lia|done|done].
  - by destruct (no_throw_index2 (t T) row (cols T - 1) s e).
Qed.

(** C7. The destructor of a live Tensor succeeds and releases the blocks
    the Tensor owns exactly once each: first the [rows] row blocks, in the
    order of the outer slots, then the outer block.  Afterwards the store
    is the one from before the construction: nothing owned is left. *)
Theorem destructor_releases_everything_once (s0 : state) (T : Tensor) (s : state) :
  alive s0 T s →
  ∃ rs s',
    destroy T s = Ok () s' ∧
    mem s !! t T = Some (Block (bytes sizeof_ptr (rows T)) (Ptr <$> rs)) ∧
    Z.of_nat (length rs) = rows T ∧
    NoDup (rs ++ [t T]) ∧
    released s' = released s ++ rs ++ [t T] ∧
    mem s' = mem s0.
Proof. intros H. eapply built_destroy, alive_built, H. Qed.

(** C8. The accessors do not modify anything: after [size] or
    [ElementAt] the state (every block, hence every stored element) is the
    one before the call.  The fields [rows], [cols] and [t] are read, never
    assigned: the Tensor is the same value before and after. *)
Theorem accessors_leave_state_unchanged :
  (∀ T s p s', size T s = Ok p s' → s' = s) ∧
  (∀ T i j s v s', ElementAt T i j s = Ok v s' → s' = s).
Proof. split; [apply size_state|apply ElementAt_state]. Qed.

(** C9 (what the code does). Construction with [rows = 0], or with
    [cols = 0], succeeds and writes no element: with [rows = 0] only the
    empty outer block is allocated, with [cols = 0] every row is an empty
    block.  The fields hold the shape.  Reading the shape through [size]
    is undefined behaviour all the same. *)
Theorem empty_shape_constructed_but_size_unreadable :
  (∀ y s0,
     let a := fresh (dom (mem s0)) in
     let T := {| rows := 0; cols := y; t := a |} in
     Tensor_default 0 y s0
       = Ok T (State (<[a := Block 0 []]> (mem s0)) (released s0)) ∧
     ∀ s k, read_size T k s = Undefined)
  ∧
  (∀ x s0,
     (0 ≤ x)%Z →
     ∃ T s rs, Tensor_default x 0 s0 = Ok T s ∧ rows T = x ∧ cols T = 0%Z ∧
       mem s !! t T = Some (Block (bytes sizeof_ptr x) (Ptr <$> rs)) ∧
       Z.of_nat (length rs) = x ∧
       (∀ r, r ∈ rs → mem s !! r = Some (Block 0 [])) ∧
       ∀ s' k, read_size T k s' = Undefined).
Proof.
  split.
  - intros y s0 a T. split; [|intros; apply read_size_undefined].
    unfold Tensor_default, mbind at 1, M_bind, new_array.
    rewrite decide_False by lia. reflexivity.
  - intros x s0 Hx.
    destruct (Tensor_default_total x 0 s0 Hx) as (T & s & Hrun & Hb); [done|lia|].
    destruct Hb as (Hr & Hc & _ & rs & vss & [Hout Hrows Hnd Hnr Hnc _] & _).
    exists T, s, rs. split; [done|]. split; [done|]. split; [done|].
    split; [by rewrite <-Hr|]. split; [lia|].
    split; [|intros; apply read_size_undefined].
    intros r [k Hk]%list_elem_of_lookup.
    destruct (Forall2_lookup_l _ _ _ _ _ Hrows Hk) as (vs & Hvs & Hmem).
    eapply Forall_lookup_1 in Hnc; [|exact Hvs].
    rewrite Hmem, Hc. destruct vs; [done|]. simpl in Hnc. lia.
Qed.

(** C10. The constructors from buffer and from sequence read only the
    positions [(i, j)] with [0 <= i < x] and [0 <= j < y]: two sources that
    agree there give Tensors with the same shape, the same result of
    reading through [size], and the same [ElementAt T i j] at every
    in-bounds position. *)
Theorem construction_depends_on_prefix_only :
  (∀ x y c1 c2 s1 s2 T1 T2 s1' s2',
     (∀ i j, (0 ≤ i < x)%Z → (0 ≤ j < y)%Z →
        ∃ v, index2 c1 i j s1 = Ok v s1 ∧ index2 c2 i j s2 = Ok v s2) →
     Tensor_buffer x y c1 s1 = Ok T1 s1' →
     Tensor_buffer x y c2 s2 = Ok T2 s2' →
     rows T1 = rows T2 ∧ cols T1 = cols T2 ∧
     (∀ k, value_of (read_size T1 k s1') = value_of (read_size T2 k s2')) ∧
     ∀ i j, (0 ≤ i < x)%Z → (0 ≤ j < y)%Z →
       ∃ v, ElementAt T1 i j s1' = Ok v s1' ∧ ElementAt T2 i j s2' = Ok v s2')
  ∧
  (∀ x y (c1 c2 : list (list N)) s1 s2 T1 T2 s1' s2',
     (∀ i j, (0 ≤ i < x)%Z → (0 ≤ j < y)%Z →
        index c1 i ≫= (λ row, index row j) = index c2 i ≫= (λ row, index row j)) →
     Tensor_vector x y c1 s1 = Ok T1 s1' →
     Tensor_vector x y c2 s2 = Ok T2 s2' →
     rows T1 = rows T2 ∧ cols T1 = cols T2 ∧
     (∀ k, value_of (read_size T1 k s1') = value_of (read_size T2 k s2')) ∧
     ∀ i j, (0 ≤ i < x)%Z → (0 ≤ j < y)%Z →
       ∃ v, ElementAt T1 i j s1' = Ok v s1' ∧ ElementAt T2 i j s2' = Ok v s2').
Proof.
  split.
  - intros x y c1 c2 s1 s2 T1 T2 s1' s2' Hagree H1 H2.
    apply Tensor_buffer_built_src in H1; [|intros i j Hi Hj; destruct (Hagree i j Hi Hj) as (v & ? & ?); eauto].
    apply Tensor_buffer_built_src in H2; [|intros i j Hi Hj; destruct (Hagree i j Hi Hj) as (v & ? & ?); eauto].
    pose proof H1 as (-> & -> & _). pose proof H2 as (Hr & Hc & _).
    split; [done|]. split; [done|]. split.
    { intros k. by rewrite !read_size_undefined. }
    intros i j Hi Hj.
    destruct (built_ElementAt _ _ _ _ _ _ i j H1) as (v1 & Hat1 & Hv1); [lia..|].
    destruct (built_ElementAt _ _ _ _ _ _ i j H2) as (v2 & Hat2 & Hv2); [lia..|].
    destruct (Hagree i j) as (v & Hs1 & Hs2); [lia..|].
    exists v. split; congruence.
  - intros x y c1 c2 s1 s2 T1 T2 s1' s2' Hagree H1 H2.
    apply Tensor_vector_built in H1. apply Tensor_vector_built in H2.
    pose proof H1 as (-> & -> & _). pose proof H2 as (Hr & Hc & _).
    split; [done|]. split; [done|]. split.
    { intros k. by rewrite !read_size_undefined. }
    intros i j Hi Hj.
    destruct (built_ElementAt _ _ _ _ _ _ i j H1) as (v1 & Hat1 & Hv1); [lia..|].
    destruct (built_ElementAt _ _ _ _ _ _ i j H2) as (v2 & Hat2 & Hv2); [lia..|].
    rewrite Hagree in Hv1 by lia.
    exists v1. split; congruence.
Qed.

(** * Further properties of the code *)


(** X2. The default constructor returns a Tensor only if [rows >= 0],
    [cols >= 0] unless [rows = 0], and, for a non-empty shape, an [N] is no
    wider than a pointer; the Tensor then has the shape asked for. *)
Theorem default_constructor_succeeds_only_if
    (x y : Z) (s0 : state) (T : Tensor) (s : state) :
  Tensor_default x y s0 = Ok T s →
  rows T = x ∧ cols T = y ∧
  (0 ≤ x)%Z ∧ (x = 0 ∨ 0 ≤ y)%Z ∧
  ((0 < x)%Z → (0 < y)%Z → (Z.pos sizeof_N ≤ Z.pos sizeof_ptr)%Z).
Proof.
  intros Hrun.
  assert (¬ ((x < 0)%Z ∨ ((0 < x)%Z ∧ (y < 0)%Z))) as Hdims.
  { intros Hneg. apply (Tensor_default_throws x y s0) in Hneg. congruence. }
  apply Tensor_default_built in Hrun as Hb.
  pose proof (built_fits _ _ _ _ _ _ Hb) as Hfits.
  destruct Hb as (? & ? & _).
  repeat split; try done; lia.
Qed.

(** ** Edge and error behaviour *)

(** X3. The constructor from a nested sequence does not check the
    sequence against the dimensions: if some position of the shape is
    missing from the sequence, the construction is undefined behaviour
    (neither a Tensor nor an exception). *)
Theorem vector_constructor_short_source_undefined
    (x y : Z) (content : list (list N)) (s0 : state) (i j : Z) :
  in_bounds x y i j →
  index content i ≫= (λ row, index row j) = None →
  Tensor_vector x y content s0 = Undefined.
Proof.
  intros [Hi Hj] Hnone.
  destruct (Tensor_vector x y content s0) as [T s|e|] eqn:Hrun; [| |done].
  - apply Tensor_vector_built in Hrun.
    destruct (built_ElementAt _ _ _ _ _ _ i j Hrun Hi Hj) as (v & _ & Hv).
    congruence.
  - destruct e. rewrite Tensor_vector_build in Hrun.
    apply build_throws in Hrun; [lia|]. intros; apply no_throw_vector_index2.
Qed.

(** X4. A construction allocates exactly [rows + 1] blocks that did not
    exist before, leaves every existing block as it was and releases
    nothing; the accessors do not change this. *)
Theorem construction_allocates_rows_plus_one (s0 : state) (T : Tensor) (s : state) :
  alive s0 T s →
  mem s0 ⊆ mem s ∧
  base.size (mem s) = (base.size (mem s0) + Z.to_nat (rows T) + 1)%nat ∧
  released s = released s0.
Proof.
  intros Hal. pose proof (alive_built _ _ _ Hal) as Hb.
  destruct (alive_owns _ _ _ Hal) as (rs & vss & Hown & Hfresh & Hframe & Hrel).
  split; [|split; [|done]].
  - apply map_subseteq_spec. intros b c Hbc.
    rewrite Hframe; [done|]. intros Hin. apply Hfresh in Hin. congruence.
  - assert (dom (mem s) = dom (mem s0) ∪ list_to_set (t T :: rs)) as Hdom.
    { apply set_eq. intros b.
      rewrite elem_of_union, !elem_of_dom, elem_of_list_to_set.
      destruct (decide (b ∈ t T :: rs)) as [Hin|Hnin].
      - pose proof (owns_live _ _ _ _ _ Hown Hin). tauto.
      - rewrite (Hframe _ Hnin). tauto. }
    rewrite <-!size_dom, Hdom. rewrite size_union.
    + rewrite size_list_to_set by apply Hown. simpl.
      destruct Hown as [_ _ _ Hnr _]. lia.
    + intros b Hb0%elem_of_dom Hbin%elem_of_list_to_set.
      apply Hfresh in Hbin. rewrite Hbin in Hb0. by destruct Hb0.
Qed.


(** X6. The destructor leaves the Tensor unusable and is not guarded
    against a second run: after it, every [ElementAt] and a second
    destruction are undefined behaviour. *)
Theorem use_after_destroy_undefined (s0 : state) (T : Tensor) (s : state) :
  alive s0 T s →
  ∃ s', destroy T s = Ok () s' ∧
        (∀ i j, ElementAt T i j s' = Undefined) ∧
        destroy T s' = Undefined.
Proof.
  intros Hal.
  destruct (built_destroy _ _ _ _ _ _ (alive_built _ _ _ Hal))
    as (rs0 & s' & Hrun & _ & _ & _ & _ & Hmem).
  destruct (alive_owns _ _ _ Hal) as (rs & vss & Hown & Hfresh & _).
  assert (mem s' !! t T = None) as Hgone.
  { rewrite Hmem. apply Hfresh. left. }
  exists s'. split; [done|]. split.
  - intros i j. unfold ElementAt, index2, mbind, M_bind, load. by rewrite Hgone.
  - unfold destroy, for_lt. destruct (decide (0 < rows T)%Z) as [Hpos|Hnpos].
    + rewrite seqZ_cons by done. simpl.
      unfold mbind, M_bind, load. by rewrite Hgone.
    + rewrite seqZ_nil by lia. simpl.
      unfold mbind, M_bind, mret, M_ret, delete_array. by rewrite Hgone.
Qed.

(** ** Ownership *)

(** X7. Two Tensors constructed one after the other share no storage:
    constructing the second leaves the first as it was, and destroying
    either of them leaves every element of the other in place. *)
Theorem instances_do_not_share_storage
    (s0 : state) (T1 : Tensor) (s1 : state) (T2 : Tensor) (s2 : state) :
  alive s0 T1 s1 → alive s1 T2 s2 →
  t T1 ≠ t T2 ∧
  (∀ i j, in_bounds (rows T1) (cols T1) i j →
     ∃ v, ElementAt T1 i j s1 = Ok v s1 ∧ ElementAt T1 i j s2 = Ok v s2) ∧
  (∃ s3, destroy T2 s2 = Ok () s3 ∧
     ∀ i j, in_bounds (rows T1) (cols T1) i j →
       ∃ v, ElementAt T1 i j s1 = Ok v s1 ∧ ElementAt T1 i j s3 = Ok v s3) ∧
  (∃ s3, destroy T1 s2 = Ok () s3 ∧
     ∀ i j, in_bounds (rows T2) (cols T2) i j →
       ∃ v, ElementAt T2 i j s2 = Ok v s2 ∧ ElementAt T2 i j s3 = Ok v s3).
Proof.
  intros Hal1 Hal2.
  destruct (alive_owns _ _ _ Hal1) as (rs1 & vss1 & Hown1 & _).
  destruct (alive_owns _ _ _ Hal2) as (rs2 & vss2 & Hown2 & Hfresh2 & Hframe2 & _).
  assert (∀ a, a ∈ t T1 :: rs1 → a ∉ t T2 :: rs2) as Hdisj.
  { intros a Ha1 Ha2. apply Hfresh2 in Ha2.
    destruct (owns_live _ _ _ _ _ Hown1 Ha1) as [c Hc]. congruence. }
  assert (owns T1 s2 rs1 vss1) as Hown12.
  { eapply owns_transfer; [exact Hown1|]. intros a Ha. by apply Hframe2, Hdisj. }
  split; [|split; [|split]].
  - intros Heq. apply (Hdisj (t T1)); [left|]. rewrite Heq. left.
  - intros i j Hij. by eapply owns_same_values.
  - destruct (proj1 (wp_total _ _ _) (wp_destroy T2 s2 rs2 vss2 Hown2))
      as ([] & s3 & Hrun & _ & Hmem3).
    exists s3. split; [done|]. intros i j Hij.
    eapply owns_same_values; [exact Hown1| |exact Hij].
    eapply owns_transfer; [exact Hown12|]. intros a Ha.
    rewrite Hmem3. by rewrite decide_False by by apply Hdisj.
  - destruct (proj1 (wp_total _ _ _) (wp_destroy T1 s2 rs1 vss1 Hown12))
      as ([] & s3 & Hrun & _ & Hmem3).
    exists s3. split; [done|]. intros i j Hij.
    eapply owns_same_values; [exact Hown2| |exact Hij].
    eapply owns_transfer; [exact Hown2|]. intros a Ha.
    rewrite Hmem3. rewrite decide_False; [done|].
    intros Ha1. by apply (Hdisj a).
Qed.

(** X8. The storage of a Tensor is separate from every block that
    existed before its construction (the source buffer among them):
    writing to such a block, or releasing it, changes no element of the
    Tensor. *)
Theorem tensor_storage_not_aliased
    (s0 : state) (T : Tensor) (s : state) (a : addr) :
  alive s0 T s →
  is_Some (mem s0 !! a) →
  (∀ w k c s', store w a k c s = Ok () s' →
     ∀ i j, in_bounds (rows T) (cols T) i j →
       ∃ v, ElementAt T i j s = Ok v s ∧ ElementAt T i j s' = Ok v s') ∧
  (∀ s', delete_array a s = Ok () s' →
     ∀ i j, in_bounds (rows T) (cols T) i j →
       ∃ v, ElementAt T i j s = Ok v s ∧ ElementAt T i j s' = Ok v s').
Proof.
  intros (rs & vss & Hown & Hfresh & _)%alive_owns [c0 Ha].
  assert (∀ b, b ∈ t T :: rs → a ≠ b) as Hne.
  { intros b Hb ->. apply Hfresh in Hb. congruence. }
  split.
  - intros w k c s' Hst i j Hij.
    eapply owns_same_values; [exact Hown| |exact Hij].
    eapply owns_transfer; [exact Hown|]. intros b Hb.
    unfold store in Hst. destruct (mem s !! a) as [blk|]; [|done].
    case_decide; [|done]. injection Hst as <-. simpl.
    by apply lookup_insert_ne, Hne.
  - intros s' Hdel i j Hij.
    eapply owns_same_values; [exact Hown| |exact Hij].
    eapply owns_transfer; [exact Hown|]. intros b Hb.
    unfold delete_array in Hdel. destruct (mem s !! a) as [blk|]; [|done].
    injection Hdel as <-. simpl.
    by apply lookup_delete_ne, Hne.
Qed.

(** X9. The constructor from a buffer copies: it neither changes the
    source nor takes it over.  Whatever could be read from the source
    before can be read, with the same value, after the construction and
    after the destruction of the Tensor. *)
Theorem buffer_source_left_intact
    (x y : Z) (content : addr) (s0 : state) (T : Tensor) (s : state)
    (i j : Z) (v : N) :
  Tensor_buffer x y content s0 = Ok T s →
  index2 content i j s0 = Ok v s0 →
  index2 content i j s = Ok v s ∧
  ∃ s', destroy T s = Ok () s' ∧ index2 content i j s' = Ok v s'.
Proof.
  intros Hrun Hread. apply Tensor_buffer_built in Hrun as Hb.
  destruct (built_destroy _ _ _ _ _ _ Hb) as (rs & s' & Hd & _ & _ & _ & _ & Hmem).
  destruct Hb as (_ & _ & _ & rs' & vss & _ & Hfresh & Hframe & _).
  split.
  - eapply index2_extends; [exact Hread|].
    apply map_subseteq_spec. intros b c Hbc.
    rewrite Hframe; [done|]. intros Hin. apply Hfresh in Hin. congruence.
  - exists s'. split; [done|].
    eapply index2_extends; [exact Hread|]. by rewrite Hmem.
Qed.

(** X10. The constructor from a buffer does not check the buffer against
    the dimensions either: if the buffer holds a matrix that lacks some
    position of the shape (too few rows, or a row that is too short), the
    construction is undefined behaviour. *)
Theorem buffer_constructor_short_source_undefined
    (x y : Z) (content : addr) (m : list (list N)) (s0 : state) (i j : Z) :
  buffer_holds s0 content m →
  in_bounds x y i j →
  index m i ≫= (λ row, index row j) = None →
  Tensor_buffer x y content s0 = Undefined.
Proof.
  intros Hbuf [Hi Hj] Hnone.
  destruct (Tensor_buffer x y content s0) as [T s|e|] eqn:Hrun; [| |done].
  - assert (built s0 x y (λ i j v, index m i ≫= (λ row, index row j) = Some v) T s)
      as Hb.
    { revert T s Hrun. rewrite Tensor_buffer_build. apply wp_partial.
      apply wp_build; [done..|]. intros i' j' s' _ _ Hsub.
      unfold wp. destruct (index2 content i' j' s') as [v s''| |] eqn:Hread; [|done..].
      split; [by eapply index2_state|].
      eapply buffer_holds_index2_inv; [|exact Hread].
      by eapply buffer_holds_extends. }
    destruct (built_ElementAt _ _ _ _ _ _ i j Hb Hi Hj) as (v & _ & Hv).
    congruence.
  - destruct e. rewrite Tensor_buffer_build in Hrun.
    apply build_throws in Hrun; [lia|]. intros; apply no_throw_index2.
Qed.

End Tensor.

(** * Instances at [N := int] *)


(** ** The theorems at concrete inputs

    [int] elements of 4 bytes and pointers of 8 bytes; for the wide
    element type, pairs of 8-byte integers (16 bytes). *)


Lemma wide_element_copy_construction_undefined_witness :
  Tensor_buffer 16 8 1 1 1%positive
    (State {[ 1%positive := Block 8 [Ptr 2];
              2%positive := Block 16 [Elem (3, 4)%Z] ]} []) = Undefined
  ∧ Tensor_vector 16 8 1 1 [[(3, 4)%Z]] (State ∅ []) = Undefined.
Proof.
  split.
  - apply (proj1 (wide_element_copy_construction_undefined (N:=Z * Z) 16 8 1 1
                    ltac:(lia) ltac:(lia) ltac:(lia))).
  - apply (proj2 (wide_element_copy_construction_undefined (N:=Z * Z) 16 8 1 1
                    ltac:(lia) ltac:(lia) ltac:(lia))).
Defined.

Lemma wide_element_default_construction_undefined_witness :
  Tensor_default (0, 0)%Z 16 8 2 3 (State ∅ []) = Undefined.
Proof.
  apply (wide_element_default_construction_undefined (0, 0)%Z 16 8 2 3); lia.
Defined.

Lemma wide_element_rows_cannot_hold_cols_elements_witness :
  ∃ b, mem (State (N:=Z * Z) {[ 1%positive := Block 24 [] ]} []) !! 1%positive = Some b ∧
       (capacity b < bytes 16 3)%Z.
Proof.
  apply (proj1 (wide_element_rows_cannot_hold_cols_elements (0, 0)%Z 16 8 4 ltac:(lia))
           3%Z (State ∅ [])); [lia|].
  vm_compute. reflexivity.
Defined.

Lemma wide_element_access_outside_row_witness :
  ElementAt 16 8 {| rows := 1; cols := 1; t := 1 |} 0 0
    (State {[ 1%positive := Block 8 [Ptr 2];
              2%positive := Block 8 [Elem (3, 4)%Z] ]} []) = Undefined.
Proof.
  apply (wide_element_access_outside_row 16 8 {| rows := 1; cols := 1; t := 1 |} _
           (Block 8 [Ptr 2]) 2%positive (Block 8 [Elem (3, 4)%Z]) 0%Z).
  - lia.
  - vm_compute. reflexivity.
  - reflexivity.
  - vm_compute. reflexivity.
  - reflexivity.
  - simpl. lia.
Defined.

Lemma destructor_releases_everything_once_witness :
  ∃ T s, Tensor_default 0%Z 4 8 2 3 (State ∅ []) = Ok T s ∧
         ∃ s', destroy 8 T s = Ok () s' ∧ mem s' = ∅.
Proof.
  do 2 eexists. split; [vm_compute; reflexivity|].
  match goal with
  | |- ∃ s', destroy _ ?T ?s = _ ∧ _ =>
      assert (alive 0%Z 4 8 4 (State ∅ []) T s) as Hal
        by (apply born_default with (x := 2%Z) (y := 3%Z); vm_compute; reflexivity);
      destruct (destructor_releases_everything_once 0%Z 4 8 4 _ T s Hal)
        as (rs & s' & Hrun & _ & _ & _ & _ & Hmem)
  end.
  by exists s'.
Defined.

Lemma accessors_leave_state_unchanged_witness :
  ∃ p s', size (N:=Z) 4 {| rows := 2; cols := 3; t := 1 |} (State ∅ []) = Ok p s' ∧
          s' = State ∅ [].
Proof.
  do 2 eexists.
  assert (size (N:=Z) 4 {| rows := 2; cols := 3; t := 1 |} (State ∅ [])
          = Ok 1%positive (State ∅ [])) as Hrun by (vm_compute; reflexivity).
  split; [exact Hrun|].
  exact (proj1 (accessors_leave_state_unchanged (N:=Z) 4 8 4) _ _ _ _ Hrun).
Defined.

Lemma empty_shape_constructed_but_size_unreadable_witness :
  ∃ T s, Tensor_default 0%Z 4 8 2 0 (State ∅ []) = Ok T s ∧
         rows T = 2%Z ∧ cols T = 0%Z ∧ read_size 4 T 0 s = Undefined.
Proof.
  destruct (proj2 (empty_shape_constructed_but_size_unreadable 0%Z 4 8 4) 2%Z (State ∅ []))
    as (T & s & rs & Hrun & Hr & Hc & _ & _ & _ & Hsz); [lia|].
  exists T, s. split; [exact Hrun|]. split; [exact Hr|]. split; [exact Hc|]. apply Hsz.
Defined.

Lemma construction_depends_on_prefix_only_witness :
  ∃ T1 s1 T2 s2,
    Tensor_vector 4 8 2 1 [[7; 9]; [8; 9]]%Z (State ∅ []) = Ok T1 s1 ∧
    Tensor_vector 4 8 2 1 [[7]; [8]; [5]]%Z (State ∅ []) = Ok T2 s2 ∧
    ∃ v, ElementAt 4 8 T1 1 0 s1 = Ok v s1 ∧ ElementAt 4 8 T2 1 0 s2 = Ok v s2.
Proof.
  do 4 eexists. split; [vm_compute; reflexivity|]. split; [vm_compute; reflexivity|].
  match goal with
  | |- ∃ v, ElementAt _ _ ?T1 _ _ ?s1 = _ ∧ ElementAt _ _ ?T2 _ _ ?s2 = _ =>
      destruct (proj2 (construction_depends_on_prefix_only (N:=Z) 4 8 4) 2%Z 1%Z
                  [[7; 9]; [8; 9]]%Z [[7]; [8]; [5]]%Z
                  (State ∅ []) (State ∅ []) T1 T2 s1 s2)
        as (_ & _ & _ & Hat)
  end.
  - intros i j Hi Hj.
    assert (i = 0 ∨ i = 1)%Z as [-> | ->] by lia;
      assert (j = 0)%Z as -> by lia; reflexivity.
  - vm_compute. reflexivity.
  - vm_compute. reflexivity.
  - apply Hat; lia.
Defined.


Lemma default_constructor_succeeds_only_if_witness :
  ∃ T s, Tensor_default 0%Z 4 8 2 3 (State ∅ []) = Ok T s ∧
         rows T = 2%Z ∧ cols T = 3%Z.
Proof.
  do 2 eexists.
  assert (∀ A B : Prop, A → (A → B) → A ∧ B) as Hcut by tauto.
  apply Hcut; [vm_compute; reflexivity|]. intros Hrun.
  destruct (default_constructor_succeeds_only_if 0%Z 4 8 2 3 _ _ _ Hrun)
    as (Hr & Hc & _).
  split; [exact Hr|exact Hc].
Defined.

Lemma vector_constructor_short_source_undefined_witness :
  Tensor_vector 4 8 2 2 [[7; 1]; [8]]%Z (State ∅ []) = Undefined.
Proof.
  apply (vector_constructor_short_source_undefined 4 8 2 2 [[7; 1]; [8]]%Z (State ∅ []) 1 1).
  - unfold in_bounds. lia.
  - reflexivity.
Defined.

Lemma buffer_constructor_short_source_undefined_witness :
  Tensor_buffer 4 8 2 2 1%positive
    (State {[ 1%positive := Block 16 [Ptr 2; Ptr 3];
              2%positive := Block 8 [Elem 7%Z; Elem 1%Z];
              3%positive := Block 4 [Elem 8%Z] ]} []) = Undefined.
Proof.
  apply (buffer_constructor_short_source_undefined 4 8 2 2 1%positive
           [[7; 1]; [8]]%Z _ 1 1).
  - exists [2; 3]%positive, 16%Z. split; [vm_compute; reflexivity|].
    split; [vm_compute; discriminate|].
    constructor; [exists 8%Z; split; [vm_compute; reflexivity|vm_compute; discriminate]|].
    constructor; [exists 4%Z; split; [vm_compute; reflexivity|vm_compute; discriminate]|].
    constructor.
  - unfold in_bounds. lia.
  - reflexivity.
Defined.

Lemma construction_allocates_rows_plus_one_witness :
  ∃ T s, Tensor_default 0%Z 4 8 2 3 (State ∅ []) = Ok T s ∧
         base.size (mem s) = 3%nat ∧ released s = [].
Proof.
  do 2 eexists. split; [vm_compute; reflexivity|].
  match goal with
  | |- base.size (mem ?s) = _ ∧ _ =>
      assert (alive 0%Z 4 8 4 (State ∅ []) {| rows := 2; cols := 3; t := 1 |} s) as Hal
        by (apply born_default with (x := 2%Z) (y := 3%Z); vm_compute; reflexivity);
      destruct (construction_allocates_rows_plus_one 0%Z 4 8 4 _ _ _ Hal)
        as (_ & Hsz & Hrel)
  end.
  split; [exact Hsz|exact Hrel].
Defined.


Lemma use_after_destroy_undefined_witness :
  ∃ T s, Tensor_default 0%Z 4 8 2 3 (State ∅ []) = Ok T s ∧
         ∃ s', destroy 8 T s = Ok () s' ∧ ElementAt 4 8 T 0 0 s' = Undefined ∧
               destroy 8 T s' = Undefined.
Proof.
  do 2 eexists. split; [vm_compute; reflexivity|].
  match goal with
  | |- ∃ s', destroy _ ?T ?s = _ ∧ _ =>
      assert (alive 0%Z 4 8 4 (State ∅ []) T s) as Hal
        by (apply born_default with (x := 2%Z) (y := 3%Z); vm_compute; reflexivity);
      destruct (use_after_destroy_undefined 0%Z 4 8 4 _ _ _ Hal) as (s' & Hrun & Hat & Hd)
  end.
  exists s'. split; [exact Hrun|]. split; [apply Hat|exact Hd].
Defined.

Lemma instances_do_not_share_storage_witness :
  ∃ T1 s1 T2 s2,
    Tensor_default 0%Z 4 8 2 3 (State ∅ []) = Ok T1 s1 ∧
    Tensor_vector 4 8 2 1 [[7]; [8]]%Z s1 = Ok T2 s2 ∧
    t T1 ≠ t T2 ∧
    ∃ s3, destroy 8 T1 s2 = Ok () s3 ∧
          ∃ v, ElementAt 4 8 T2 1 0 s2 = Ok v s2 ∧ ElementAt 4 8 T2 1 0 s3 = Ok v s3.
Proof.
  do 4 eexists. split; [vm_compute; reflexivity|]. split; [vm_compute; reflexivity|].
  match goal with
  | |- t ?T1 ≠ t ?T2 ∧ (∃ s3, destroy _ _ ?s2 = _ ∧ _) =>
      assert (alive 0%Z 4 8 4 (State ∅ []) T1
                (State {[ 1%positive := Block 16 [Ptr 2; Ptr 3];
                          2%positive := Block 24 [Elem 0; Elem 0; Elem 0]%Z;
                          3%positive := Block 24 [Elem 0; Elem 0; Elem 0]%Z ]} [])) as Hal1
        by (apply born_default with (x := 2%Z) (y := 3%Z); vm_compute; reflexivity);
      assert (alive 0%Z 4 8 4
                (State {[ 1%positive := Block 16 [Ptr 2; Ptr 3];
                          2%positive := Block 24 [Elem 0; Elem 0; Elem 0]%Z;
                          3%positive := Block 24 [Elem 0; Elem 0; Elem 0]%Z ]} []) T2 s2) as Hal2
        by (apply born_vector with (x := 2%Z) (y := 1%Z) (content := [[7]; [8]]%Z);
            vm_compute; reflexivity);
      destruct (instances_do_not_share_storage _ _ _ _ _ _ _ _ _ Hal1 Hal2)
        as (Hne & _ & _ & s3 & Hrun & Hat)
  end.
  split; [exact Hne|]. exists s3. split; [exact Hrun|].
  apply Hat. unfold in_bounds. simpl. lia.
Defined.

Lemma tensor_storage_not_aliased_witness :
  ∃ T s s',
    Tensor_buffer 4 8 2 1 1%positive
      (State {[ 1%positive := Block 16 [Ptr 2; Ptr 3];
                2%positive := Block 4 [Elem 7%Z];
                3%positive := Block 4 [Elem 8%Z] ]} []) = Ok T s ∧
    store 4 3%positive 0 (Elem 5%Z) s = Ok () s' ∧
    ∃ v, ElementAt 4 8 T 1 0 s = Ok v s ∧ ElementAt 4 8 T 1 0 s' = Ok v s'.
Proof.
  do 3 eexists. split; [vm_compute; reflexivity|].
  match goal with
  | |- store _ _ _ _ ?s = _ ∧ (∃ v, ElementAt _ _ ?T _ _ _ = _ ∧ _) =>
      assert (alive 0%Z 4 8 4
                (State {[ 1%positive := Block 16 [Ptr 2; Ptr 3];
                          2%positive := Block 4 [Elem 7%Z];
                          3%positive := Block 4 [Elem 8%Z] ]} []) T s) as Hal
        by (apply born_buffer with (x := 2%Z) (y := 1%Z) (content := 1%positive);
            vm_compute; reflexivity);
      destruct (tensor_storage_not_aliased _ _ _ _ _ _ _ 3%positive Hal) as [Hst _];
        [eexists; vm_compute; reflexivity|]
  end.
  assert (∀ A B : Prop, A → (A → B) → A ∧ B) as Hcut by tauto.
  apply Hcut; [vm_compute; reflexivity|]. intros Hrun.
  apply (Hst _ _ _ _ Hrun). unfold in_bounds. simpl. lia.
Defined.

Lemma buffer_source_left_intact_witness :
  ∃ T s,
    Tensor_buffer 4 8 2 1 1%positive
      (State {[ 1%positive := Block 16 [Ptr 2; Ptr 3];
                2%positive := Block 4 [Elem 7%Z];
                3%positive := Block 8 [Elem 8%Z; Elem 9%Z] ]} []) = Ok T s ∧
    index2 4 8 1%positive 1 1 s = Ok 9%Z s.
Proof.
  do 2 eexists.
  assert (∀ A B : Prop, A → (A → B) → A ∧ B) as Hcut by tauto.
  apply Hcut; [vm_compute; reflexivity|]. intros Hrun.
  apply (buffer_source_left_intact _ _ _ _ _ _ _ _ 1 1 9%Z Hrun).
  vm_compute. reflexivity.
Defined.
